(** * StoryWeaver AI Academy: the adaptive orchestration core

    A shallow embedding of the story orchestration code of
    [src/components/StoryInterface.tsx] (the component and the service
    functions [parseJSON], [saveStoryOffline], [updateStorySceneMedia],
    [generateFullStory], [simplifyContent], [generateVisuals],
    [analyzeLearnerEmotion]) and of [updateStats] in [src/App.tsx].

    Conventions.
    - Strings are Stdlib [string]s; JavaScript's [.length] is modelled as
      [String.length] (one unit per character, exact for ASCII text).
    - The generative backend is an oracle: each call is given its outcome
      (a thrown error or a response) as an argument.
    - React effects are modelled as the function run after every commit
      whose dependency list changed; state setters batched in one
      asynchronous continuation are applied together, as React 18 does. *)

From Stdlib Require Import QArith Ascii String.
Local Set Warnings "-register-all".
From stdpp Require Import base gmap strings list pretty.

Local Open Scope list_scope.

(* ------------------------------------------------------------------ *)
(** ** Data model ([src/types.ts] and the [FullStory] shape used by the
    service) *)

Inductive MediaType := Image | Video.

Inductive Language := ENGLISH | HINDI | SPANISH.

Record StoryScene := mkScene {
  scene_id : string;
  text : string;
  imagePrompt : string;
  mediaType : MediaType;
  mediaUrl : option string
}.

Record QuizOption := mkOption { opt_text : string; isCorrect : bool }.

Record Quiz := mkQuiz {
  question : string;
  options : list QuizOption;
  feedback : string
}.

Record FullStory := mkStory {
  story_id : string;
  title : string;
  scenes : list StoryScene;
  quiz : list Quiz;
  notes : list string;
  timestamp : Z;
  language : Language
}.

Definition set_scene_text (sc : StoryScene) (t : string) : StoryScene :=
  mkScene (scene_id sc) t (imagePrompt sc) (mediaType sc) (mediaUrl sc).

Definition set_scene_media (sc : StoryScene) (u : string) : StoryScene :=
  mkScene (scene_id sc) (text sc) (imagePrompt sc) (mediaType sc) (Some u).

Definition set_story_scenes (s : FullStory) (l : list StoryScene) : FullStory :=
  mkStory (story_id s) (title s) l (quiz s) (notes s) (timestamp s) (language s).

(* ------------------------------------------------------------------ *)
(** ** [simplifyContent]

    [return response.text || text] inside a [try]; the [catch] returns
    [text].  The backend call either throws or answers with a response
    whose [.text] may be [undefined]. *)

Inductive GenOutcome (A : Type) := Throws | Returns (a : A).
Arguments Throws {A}.
Arguments Returns {A} a.

(** JavaScript [s || d] on a [string | undefined]: the empty string and
    [undefined] are falsy. *)
Definition or_default (s : option string) (d : string) : string :=
  match s with
  | Some t => if String.eqb t EmptyString then d else t
  | None => d
  end.

Definition simplifyContent (resp : GenOutcome (option string)) (txt : string) : string :=
  match resp with
  | Throws => txt
  | Returns r => or_default r txt
  end.

(* ------------------------------------------------------------------ *)
(** ** The simplification effect of [StoryInterface] (lines 47-66)

    State read by the effect: [story], [currentSceneIndex], the
    [needsSimplification] flag of the current [emotionState], and the
    [simplifying] flag.  [pending] records the closure of the request in
    flight: the [currentSceneIndex] it captured and the text it sent. *)

Module Simplify.

Record SimState := mkSim {
  sim_story : option FullStory;
  sim_idx : nat;
  sim_needs : bool;
  simplifying : bool;
  pending : option (nat * string)
}.

Definition init_state : SimState := mkSim None 0 false false None.

(** [const isQuizMode = story && currentSceneIndex >= story.scenes.length] *)
Definition isQuizMode (st : SimState) : bool :=
  match sim_story st with
  | Some s => Nat.leb (length (scenes s)) (sim_idx st)
  | None => false
  end.

(** A simplification request: the scene index and the text sent. *)
Definition Request := (nat * string)%type.

(** The body of [handleSimplification]. *)
Definition handleSimplification (st : SimState) : SimState * option Request :=
  match sim_story st with
  | Some s =>
      if sim_needs st && negb (isQuizMode st) && negb (simplifying st) then
        match scenes s !! sim_idx st with
        | Some sc =>
            if Nat.ltb 50 (String.length (text sc)) then
              (mkSim (sim_story st) (sim_idx st) (sim_needs st) true
                     (Some (sim_idx st, text sc)),
               Some (sim_idx st, text sc))
            else
              (* [setSimplifying(true)] then [setSimplifying(false)] in
                 the same tick: no net change *)
              (st, None)
        | None => (st, None)
        end
      else (st, None)
  | None => (st, None)
  end.

(** Events that reach the component. *)
Inductive Event :=
  | ESample (needs : bool)          (* a new [emotionState] object *)
  | ELoad (s : FullStory)           (* [handleGenerate] resolved *)
  | ENext                           (* "Next Scene" / "Take Quiz" *)
  | EPrev                           (* "Previous" *)
  | EDone (resp : GenOutcome (option string)).
                                    (* the pending [simplifyContent] resolved *)

(** Observations: requests issued and completions. *)
Inductive Obs := ObsIssue (r : Request) | ObsComplete.

(** Run the effect after a commit whose dependencies changed. *)
Definition rerun (st : SimState) : SimState * list Obs :=
  let '(st', r) := handleSimplification st in
  (st', match r with Some q => [ObsIssue q] | None => [] end).

Definition step (e : Event) (st : SimState) : SimState * list Obs :=
  match e with
  | ESample b =>
      rerun (mkSim (sim_story st) (sim_idx st) b (simplifying st) (pending st))
  | ELoad s =>
      (* the prompt input is only rendered while [story] is null *)
      match sim_story st with
      | None => rerun (mkSim (Some s) 0 (sim_needs st) (simplifying st) (pending st))
      | Some _ => (st, [])
      end
  | ENext =>
      match sim_story st with
      | Some s =>
          if isQuizMode st then (st, [])
          else rerun (mkSim (sim_story st) (S (sim_idx st)) (sim_needs st)
                            (simplifying st) (pending st))
      | None => (st, [])
      end
  | EPrev =>
      match sim_story st with
      | Some s =>
          if isQuizMode st then (st, [])
          else if Nat.eqb (sim_idx st) 0 then (st, [])  (* button disabled *)
          else rerun (mkSim (sim_story st) (Nat.pred (sim_idx st)) (sim_needs st)
                            (simplifying st) (pending st))
      | None => (st, [])
      end
  | EDone resp =>
      match pending st with
      | Some (i, t) =>
          let simplified := simplifyContent resp t in
          (* [setStory(prev => ...)]: [newScenes[currentSceneIndex] =
             { ...newScenes[currentSceneIndex], text: simplifiedText }] with
             the index captured by the closure; then [setSimplifying(false)] *)
          let story' :=
            match sim_story st with
            | Some s =>
                match scenes s !! i with
                | Some sc => Some (set_story_scenes s (<[i := set_scene_text sc simplified]> (scenes s)))
                | None => Some s
                end
            | None => None
            end in
          let '(st', obs) := rerun (mkSim story' (sim_idx st) (sim_needs st) false None) in
          (st', ObsComplete :: obs)
      | None => (st, [])
      end
  end.

Fixpoint run (evs : list Event) (st : SimState) : SimState * list Obs :=
  match evs with
  | [] => (st, [])
  | e :: evs' =>
      let '(st1, o1) := step e st in
      let '(st2, o2) := run evs' st1 in
      (st2, o1 ++ o2)
  end.

(** The in-flight discipline of an observation trace: [n] requests are
    outstanding; an issue is allowed only when none is. *)
Fixpoint single_flight (n : nat) (obs : list Obs) : bool :=
  match obs with
  | [] => true
  | ObsIssue _ :: obs' => Nat.eqb n 0 && single_flight 1 obs'
  | ObsComplete :: obs' => single_flight (Nat.pred n) obs'
  end.

End Simplify.

(* ------------------------------------------------------------------ *)
(** ** Local Story Cache: [saveStoryOffline] and [updateStorySceneMedia]

    The [localStorage] slot under [STORAGE_KEY]: absent, holding a
    payload that [JSON.parse] rejects (or that is not an array), or
    holding a list of stories.  An array whose elements are not stories
    (such as [[1]]) is not represented.  [JSON.stringify] followed by
    [JSON.parse] is taken to give the stories back.  [write_ok] tells whether
    [localStorage.setItem] succeeded (it throws [QuotaExceededError] when
    the storage is full). *)

Inductive Slot := SlotEmpty | SlotCorrupt | SlotStories (l : list FullStory).

(** [saved ? JSON.parse(saved) : []]; [None] when [JSON.parse] throws. *)
Definition read_slot (slot : Slot) : option (list FullStory) :=
  match slot with
  | SlotEmpty => Some []
  | SlotCorrupt => None
  | SlotStories l => Some l
  end.

Definition saveStoryOffline (write_ok : bool) (slot : Slot) (story : FullStory) : Slot :=
  match read_slot slot with
  | None => slot                                   (* caught: storage unavailable *)
  | Some stories =>
      let stories' := filter (fun s => story_id s <> story_id story) stories in
      let updated := take 5 (story :: stories') in
      if write_ok then SlotStories updated else slot  (* caught: quota *)
  end.

(** A sequence of saves, each with the outcome of its [setItem]. *)
Fixpoint save_all (slot : Slot) (saves : list (bool * FullStory)) : Slot :=
  match saves with
  | [] => slot
  | (ok, s) :: rest => save_all (saveStoryOffline ok slot s) rest
  end.

(** [stories.findIndex(s => s.id === storyId)] is [list_find]. *)
Definition updateStorySceneMedia (write_ok : bool) (slot : Slot)
    (storyId sceneId mediaUrl : string) : Slot :=
  match slot with
  | SlotStories stories =>
      match list_find (fun s => story_id s = storyId) stories with
      | Some (si, st) =>
          match list_find (fun sc => scene_id sc = sceneId) (scenes st) with
          | Some (ci, sc) =>
              if write_ok then
                SlotStories (<[si := set_story_scenes st
                                       (<[ci := set_scene_media sc mediaUrl]> (scenes st))]> stories)
              else slot
          | None => slot
          end
      | None => slot
      end
  | SlotEmpty => slot        (* [if (!saved) return;] *)
  | SlotCorrupt => slot      (* [JSON.parse] throws; caught *)
  end.

(** [getOfflineStories] (lines 523-530): [saved ? JSON.parse(saved) : []],
    and [[]] when [JSON.parse] throws.  A payload that parses to a
    non-array is returned as is by the source; [SlotCorrupt] does not
    tell it apart: on [SlotCorrupt] this reading is [[]]. *)
Definition getOfflineStories (slot : Slot) : list FullStory :=
  match read_slot slot with
  | Some stories => stories
  | None => []
  end.

(** The writes the app makes to the cache: [saveStoryOffline] (from
    [generateFullStory]) and [updateStorySceneMedia] (from the media
    effect), each with the outcome of its [setItem]. *)
Inductive StorageOp :=
  | OpSave (write_ok : bool) (story : FullStory)
  | OpPatch (write_ok : bool) (storyId sceneId mediaUrl : string).

Definition apply_op (slot : Slot) (op : StorageOp) : Slot :=
  match op with
  | OpSave ok s => saveStoryOffline ok slot s
  | OpPatch ok sid cid u => updateStorySceneMedia ok slot sid cid u
  end.

Fixpoint apply_ops (slot : Slot) (ops : list StorageOp) : Slot :=
  match ops with
  | [] => slot
  | op :: rest => apply_ops (apply_op slot op) rest
  end.

(** Spec side of C4: the saved stories' distinct identities, most recent
    first, each with its latest version. *)
Fixpoint dedup_ids (seen : list string) (l : list FullStory) : list FullStory :=
  match l with
  | [] => []
  | x :: xs =>
      if bool_decide (story_id x ∈ seen) then dedup_ids seen xs
      else x :: dedup_ids (story_id x :: seen) xs
  end.

Definition latest_distinct (saves : list FullStory) : list FullStory :=
  dedup_ids [] (reverse saves).

(* ------------------------------------------------------------------ *)
(** ** Media Acquisition Pipeline: [generateVisuals]

    Each backend call is an oracle.  The video branch (generate, poll
    until [done], fetch, [blobToBase64]) either throws somewhere, ends
    without a download link, or yields a data URL.  An image call either
    throws or answers with the parts of its first candidate
    ([response.candidates?.[0]?.content?.parts || []]). *)

Inductive VideoResult := VideoThrows | VideoNoLink | VideoData (dataurl : string).

Inductive Part := PartText (t : string) | PartInline (data : string).

(** The calls made, with the decorated prompt each one sends. *)
Inductive Attempt :=
  | AVideo (prompt : string)
  | AProImage (prompt : string)
  | AFlashImage (prompt : string).

Definition image_suffix : string :=
  ", highly detailed, magical atmosphere, digital art, 8k resolution, soft lighting".

Definition video_suffix : string := ", 3d animated style, disney pixar style, bright colors".

(** [for (const part of parts) if (part.inlineData) return `data:image/png;base64,...`] *)
Fixpoint first_inline (parts : list Part) : option string :=
  match parts with
  | [] => None
  | PartInline d :: _ => Some ("data:image/png;base64," +:+ d)
  | PartText _ :: ps => first_inline ps
  end.

(** [generateFlashImage]: never throws. *)
Definition generateFlashImage (prompt : string) (flash : GenOutcome (list Part))
    : option string * list Attempt :=
  (match flash with Throws => None | Returns ps => first_inline ps end,
   [AFlashImage (prompt +:+ image_suffix)]).

Definition generateVisuals (prompt : string) (type : MediaType)
    (video : VideoResult) (pro flash : GenOutcome (list Part))
    : option string * list Attempt :=
  let after_video (tried : list Attempt) :=
    let pro_call := AProImage (prompt +:+ image_suffix) in
    match pro with
    | Throws =>
        let '(r, a) := generateFlashImage prompt flash in (r, tried ++ pro_call :: a)
    | Returns ps =>
        match first_inline ps with
        | Some u => (Some u, tried ++ [pro_call])
        | None => let '(r, a) := generateFlashImage prompt flash in (r, tried ++ pro_call :: a)
        end
    end in
  match type with
  | Video =>
      let vcall := AVideo (prompt +:+ video_suffix) in
      match video with
      | VideoData d => (Some d, [vcall])
      | VideoNoLink | VideoThrows => after_video [vcall]
      end
  | Image => after_video []
  end.

(* ------------------------------------------------------------------ *)
(** ** The media effect of [StoryInterface] (lines 69-90)

    [mediaCache] is a JS object used as a map: a [gmap].  Issued requests
    are kept, in order, with the scene they were issued for; a request
    resolves with the URL [generateVisuals] produced (or [undefined]). *)

Module Media.

Record MediaState := mkMedia {
  m_story : FullStory;
  m_idx : nat;
  m_offline : bool;
  mediaCache : gmap string string;
  m_pending : list StoryScene;
  m_slot : Slot
}.

(** JavaScript truthiness of a [string | undefined]. *)
Definition truthy (o : option string) : bool :=
  match o with Some u => negb (String.eqb u EmptyString) | None => false end.

Definition isQuizMode (st : MediaState) : bool :=
  Nat.leb (length (scenes (m_story st))) (m_idx st).

(** The effect body; the new state and the scene a request was issued for. *)
Definition mediaEffect (st : MediaState) : MediaState * option StoryScene :=
  if isQuizMode st then (st, None)
  else match scenes (m_story st) !! m_idx st with
  | None => (st, None)
  | Some sc =>
      if truthy (mediaUrl sc) && negb (truthy (mediaCache st !! scene_id sc)) then
        let u := match mediaUrl sc with Some u => u | None => EmptyString end in
        (mkMedia (m_story st) (m_idx st) (m_offline st)
                 (<[scene_id sc := u]> (mediaCache st)) (m_pending st) (m_slot st), None)
      else if negb (truthy (mediaCache st !! scene_id sc)) && negb (m_offline st) then
        (mkMedia (m_story st) (m_idx st) (m_offline st) (mediaCache st)
                 (m_pending st ++ [sc]) (m_slot st), Some sc)
      else (st, None)
  end.

Inductive Event :=
  | MNext
  | MPrev
  | MSetOffline (b : bool)
  | MResolve (k : nat) (url : option string) (write_ok : bool).
      (* the [k]-th pending request resolved with [url] *)

Definition with_idx (st : MediaState) (i : nat) : MediaState :=
  mkMedia (m_story st) i (m_offline st) (mediaCache st) (m_pending st) (m_slot st).

Definition step (e : Event) (st : MediaState) : MediaState :=
  match e with
  | MNext => if isQuizMode st then st else fst (mediaEffect (with_idx st (S (m_idx st))))
  | MPrev =>
      if isQuizMode st || Nat.eqb (m_idx st) 0 then st
      else fst (mediaEffect (with_idx st (Nat.pred (m_idx st))))
  | MSetOffline b =>
      if Bool.eqb b (m_offline st) then st
      else fst (mediaEffect (mkMedia (m_story st) (m_idx st) b (mediaCache st)
                                     (m_pending st) (m_slot st)))
  | MResolve k url ok =>
      match m_pending st !! k with
      | None => st
      | Some sc =>
          let rest := take k (m_pending st) ++ drop (S k) (m_pending st) in
          if truthy url then
            let u := match url with Some u => u | None => EmptyString end in
            mkMedia (m_story st) (m_idx st) (m_offline st)
                    (<[scene_id sc := u]> (mediaCache st)) rest
                    (updateStorySceneMedia ok (m_slot st) (story_id (m_story st)) (scene_id sc) u)
          else
            mkMedia (m_story st) (m_idx st) (m_offline st) (mediaCache st) rest (m_slot st)
      end
  end.

Fixpoint run (evs : list Event) (st : MediaState) : MediaState :=
  match evs with
  | [] => st
  | e :: evs' => run evs' (step e st)
  end.

(** The component after a story loaded: the cache pre-populated with the
    scenes' stored media, and the effect run once for scene 0. *)
Definition loaded (s : FullStory) (offline : bool) (slot : Slot) : MediaState :=
  (* [initialCache[s.id] = s.mediaUrl] in scene order: the last write of
     a key wins, so the list is folded from its end *)
  let cache0 := list_to_map (reverse (omap (fun sc => match mediaUrl sc with
                                             | Some u => if String.eqb u EmptyString then None
                                                         else Some (scene_id sc, u)
                                             | None => None end) (scenes s))) in
  fst (mediaEffect (mkMedia s 0 offline cache0 [] slot)).

End Media.

(* ------------------------------------------------------------------ *)
(** ** Session progress and quiz answers ([updateStats] in [App.tsx],
    [handleQuizAnswer] and the quiz buttons of [StoryInterface]) *)

Record UserProgress := mkProgress {
  badges : list string;
  storiesCompleted : Z;
  quizzesPassed : Z;
  totalPoints : Z;
  literacyScore : list Z;
  engagementScore : list Z
}.

Definition updateStats (correct : bool) (p : UserProgress) : UserProgress :=
  let newPoints := if correct then 50%Z else 10%Z in
  mkProgress (badges p) (storiesCompleted p)
    (if correct then (quizzesPassed p + 1)%Z else quizzesPassed p)
    (totalPoints p + newPoints)%Z
    (literacyScore p) (engagementScore p).

(** [quizState]: question index to the correctness of the chosen option. *)
Definition handleQuizAnswer (qIndex : nat) (correct : bool)
    (qs : gmap nat bool) (p : UserProgress) : gmap nat bool * UserProgress :=
  (<[qIndex := correct]> qs, updateStats correct p).

(** A click on an option of question [qIndex]: the buttons are rendered
    with [disabled={quizState[idx] !== undefined}], so a click on an
    answered question does not reach [handleQuizAnswer]. *)
Definition clickQuizOption (qIndex : nat) (correct : bool)
    (qs : gmap nat bool) (p : UserProgress) : gmap nat bool * UserProgress :=
  match qs !! qIndex with
  | Some _ => (qs, p)
  | None => handleQuizAnswer qIndex correct qs p
  end.

(** A sequence of clicks on quiz options: the question index and the
    [isCorrect] flag of the option clicked. *)
Fixpoint click_all (clicks : list (nat * bool)) (qs : gmap nat bool) (p : UserProgress)
    : gmap nat bool * UserProgress :=
  match clicks with
  | [] => (qs, p)
  | (q, b) :: rest =>
      let '(qs', p') := clickQuizOption q b qs p in click_all rest qs' p'
  end.

(* ------------------------------------------------------------------ *)
(** ** JSON values and the Response Parser ([parseJSON]) *)

Inductive Json :=
  | JNull
  | JBool (b : bool)
  | JNum (q : Q)
  | JStr (s : string)
  | JArr (l : list Json)
  | JObj (fields : list (string * Json)).

(** Property read on an object parsed by [JSON.parse]: with repeated keys
    the last one wins. *)
Definition obj_get (k : string) (fields : list (string * Json)) : option Json :=
  fold_left (fun acc kv => if String.eqb (fst kv) k then Some (snd kv) else acc) fields None.

(** [v.k] for a non-null value; [None] is [undefined].  Reading a property
    of [null] or [undefined] throws, see the callers. *)
Definition get_prop (v : Json) (k : string) : option Json :=
  match v with JObj fs => obj_get k fs | _ => None end.

(** JavaScript truthiness. *)
Definition json_truthy (v : Json) : bool :=
  match v with
  | JNull => false
  | JBool b => b
  | JNum q => negb (Qeq_bool q 0%Q)
  | JStr s => negb (String.eqb s EmptyString)
  | JArr _ | JObj _ => true
  end.

Definition opt_truthy (o : option Json) : bool :=
  match o with Some v => json_truthy v | None => false end.

(** Characters as the code sees them. *)
Definition backtick : ascii := "`"%char.
Definition newline : ascii := Ascii.ascii_of_nat 10.

Fixpoint is_prefix (p s : list ascii) : bool :=
  match p, s with
  | [], _ => true
  | c :: p', d :: s' => Ascii.eqb c d && is_prefix p' s'
  | _ :: _, [] => false
  end.

Definition fence : list ascii := [backtick; backtick; backtick].
Definition fence_json : list ascii := fence ++ list_ascii_of_string "json".

(** [text.replace(/```json\n?|\n?```/g, '')]: at each position the first
    alternative is tried before the second, and [\n?] is greedy. *)
Fixpoint strip_fences_go (fuel : nat) (s : list ascii) : list ascii :=
  match fuel with
  | 0 => s
  | S f =>
      match s with
      | [] => []
      | c :: rest =>
          if is_prefix (fence_json ++ [newline]) s then strip_fences_go f (drop 8 s)
          else if is_prefix fence_json s then strip_fences_go f (drop 7 s)
          else if is_prefix (newline :: fence) s then strip_fences_go f (drop 4 s)
          else if is_prefix fence s then strip_fences_go f (drop 3 s)
          else c :: strip_fences_go f rest
      end
  end.

Definition strip_fences (s : list ascii) : list ascii := strip_fences_go (length s) s.

(** [String.prototype.trim] on ASCII text: tab, line feed, vertical tab,
    form feed, carriage return and space. *)
Definition is_ws (c : ascii) : bool :=
  let n := Ascii.nat_of_ascii c in (Nat.leb 9 n && Nat.leb n 13) || Nat.eqb n 32.

Fixpoint trim_start (s : list ascii) : list ascii :=
  match s with
  | c :: s' => if is_ws c then trim_start s' else s
  | [] => []
  end.

Definition trim (s : list ascii) : list ascii := reverse (trim_start (reverse (trim_start s))).

(** [indexOf] and [lastIndexOf] of one character; [None] is [-1]. *)
Fixpoint indexOf (c : ascii) (s : list ascii) : option nat :=
  match s with
  | [] => None
  | d :: s' => if Ascii.eqb c d then Some 0 else option_map S (indexOf c s')
  end.

Definition lastIndexOf (c : ascii) (s : list ascii) : option nat :=
  option_map (fun i => length s - 1 - i) (indexOf c (reverse s)).

(** [s.substring(a, b)]: both ends clamped to the length, swapped when
    [a > b]. *)
Definition js_substring (s : list ascii) (a b : nat) : list ascii :=
  let a' := Nat.min a (length s) in
  let b' := Nat.min b (length s) in
  let lo := Nat.min a' b' in
  let hi := Nat.max a' b' in
  take (hi - lo) (drop lo s).

Section Parsing.

(** [JSON.parse], a built-in: the value, or [None] when it throws. *)
Variable JSON_parse : list ascii -> option Json.

(** [parseJSON]: the value returned ([None] is [null]) and the strings
    handed to [JSON.parse], in order. *)
Definition parseJSON (t : list ascii) : option Json * list (list ascii) :=
  let cleanText := trim (strip_fences t) in
  match JSON_parse cleanText with
  | Some v => (Some v, [cleanText])
  | None =>
      match indexOf "{"%char t, lastIndexOf "}"%char t with
      | Some firstBrace, Some lastBrace =>
          let sub := js_substring t firstBrace (lastBrace + 1) in
          (JSON_parse sub, [cleanText; sub])
      | _, _ => (None, [cleanText])
      end
  end.

(** JavaScript's ToNumber on a string, an array or an object (through its
    string form); [None] is [NaN]. *)
Variable prim_to_number : Json -> option Q.

Definition to_number (v : Json) : option Q :=
  match v with
  | JNull => Some 0%Q
  | JBool b => Some (if b then 1 else 0)%Q
  | JNum q => Some q
  | _ => prim_to_number v
  end.

(** [x > 0.6]; a comparison with [NaN] is false. *)
Definition gt_threshold (v : Json) : bool :=
  match to_number v with
  | Some q => negb (Qle_bool q (6 # 10))
  | None => false
  end.

Record EmotionAnalysisResult := mkEmotion {
  emotion : Json;            (* [(data.emotion as Emotion) || Emotion.NEUTRAL] *)
  confidence : Json;         (* [data.confidence || 0] *)
  needsSimplification : bool
}.

Definition neutral_result : EmotionAnalysisResult :=
  mkEmotion (JStr "NEUTRAL") (JNum 0%Q) false.

Definition js_or (o : option Json) (d : Json) : Json :=
  match o with Some v => if json_truthy v then v else d | None => d end.

(** [analyzeLearnerEmotion]: the backend call throws or answers with a
    [.text] that may be [undefined]; [data.emotion] on a [null] result
    throws a [TypeError], caught like a backend error. *)
Definition analyzeLearnerEmotion (resp : GenOutcome (option string)) : EmotionAnalysisResult :=
  match resp with
  | Throws => neutral_result
  | Returns txt =>
      let data := fst (parseJSON (list_ascii_of_string (or_default txt "{}"))) in
      match data with
      | None | Some JNull => neutral_result
      | Some d =>
          let e := get_prop d "emotion" in
          let c := get_prop d "confidence" in
          mkEmotion (js_or e (JStr "NEUTRAL")) (js_or c (JNum 0%Q))
            (match e with Some (JStr s) => String.eqb s "CONFUSED" | _ => false end
             && gt_threshold (js_or c (JNum 0%Q)))
      end
  end.

(** The story [generateFullStory] returns; scenes are the objects built by
    [data.scenes.map((s: any) => ({ ...s, id: generateUUID() }))]. *)
Record GenStory := mkGen {
  g_id : string;
  g_title : option Json;
  g_scenes : list (list (string * Json));
  g_quiz : option Json;
  g_notes : option Json;
  g_timestamp : Z;
  g_language : Language
}.

(** [{ ...s }]: own enumerable properties; a string spreads its characters
    under their indices, other primitives spread nothing. *)
Definition spread (v : Json) : list (string * Json) :=
  match v with
  | JObj fs => fs
  | JArr l => imap (fun i x => (pretty (N.of_nat i), x)) l
  | JStr s => imap (fun i c => (pretty (N.of_nat i), JStr (String c EmptyString)))
                   (list_ascii_of_string s)
  | _ => []
  end.

(** [{ ...fields, [k]: v }]: an existing key keeps its place. *)
Definition set_field (k : string) (v : Json) (fs : list (string * Json)) : list (string * Json) :=
  if existsb (fun kv => String.eqb (fst kv) k) fs
  then map (fun kv => if String.eqb (fst kv) k then (k, v) else kv) fs
  else fs ++ [(k, v)].

(** [generateUUID()]: [Date.now().toString(36)] followed by the digits of
    [Math.random().toString(36)] after its leading ["0."]; [now36 n] and
    [rand36 n] are the clock and the random number at the [n]-th call. *)
Definition generateUUID (now36 rand36 : nat -> string) (n : nat) : string :=
  (now36 n +:+ substring 2 (String.length (rand36 n)) (rand36 n))%string.

(** [generateFullStory]: the Pro model is tried, then the Flash model;
    any error up to the [return] is caught and gives [null].  The
    [saveStoryOffline] side effect is left out. *)
Definition generateFullStory (pro flash : GenOutcome (option string))
    (now36 rand36 : nat -> string) (now : Z) (lang : Language) : option GenStory :=
  let response :=
    match pro with
    | Returns r => Some r
    | Throws => match flash with Returns r => Some r | Throws => None end
    end in
  match response with
  | None => None
  | Some rtext =>
      match fst (parseJSON (list_ascii_of_string (or_default rtext "{}"))) with
      | None => None                                  (* [!data] *)
      | Some d =>
          if negb (json_truthy d) then None           (* [!data] *)
          else
            match get_prop d "scenes" with
            | Some (JArr l) =>
                Some (mkGen (generateUUID now36 rand36 0) (get_prop d "title")
                        (imap (fun i s => set_field "id"
                                 (JStr (generateUUID now36 rand36 (S i))) (spread s)) l)
                        (get_prop d "quiz") (get_prop d "notes") now lang)
            | Some _ => None   (* falsy: [!data.scenes]; else [.map] is not a function *)
            | None => None     (* [!data.scenes] *)
            end
      end
  end.

End Parsing.

(* ------------------------------------------------------------------ *)
(** ** [handleGenerate] of [StoryInterface] (lines 92-120)

    The state it writes, seen after the awaited [generateFullStory] call
    settled (the setters before the [await] are overwritten or kept by
    those after it).  [newStory] is the outcome of
    [generateFullStory(inputText, 10, language)]. *)

Record GenUI := mkGenUI {
  ui_input : string;
  ui_loading : bool;
  ui_error : option string;
  ui_story : option FullStory;
  ui_idx : nat;
  ui_cache : gmap string string;
  ui_quiz : gmap nat bool
}.

Definition generate_error : string :=
  "Oops! Creating this story was a bit too tricky. Please try a different topic.".

(** [newStory.scenes.forEach(s => { if (s.mediaUrl) initialCache[s.id] = s.mediaUrl; })]:
    a later scene with the same identity overwrites an earlier one. *)
Definition initialCache (s : FullStory) : gmap string string :=
  list_to_map (reverse (omap (fun sc => match mediaUrl sc with
                                         | Some u => if String.eqb u EmptyString then None
                                                     else Some (scene_id sc, u)
                                         | None => None end) (scenes s))).

(** The state after the call, and whether [generateFullStory] was called. *)
Definition handleGenerate (newStory : option FullStory) (ui : GenUI) : GenUI * bool :=
  match trim (list_ascii_of_string (ui_input ui)) with
  | [] => (ui, false)                                (* [if (!inputText.trim()) return;] *)
  | _ :: _ =>
      match newStory with
      | Some s => (mkGenUI EmptyString false None (Some s) 0 (initialCache s) ∅, true)
      | None => (mkGenUI (ui_input ui) false (Some generate_error) None 0 ∅ ∅, true)
      end
  end.

(* ================================================================== *)
(** * Proofs *)

Module SimplifyProofs.
Import Simplify.

(** The flag [simplifying] is set exactly while a request is pending,
    and the pending request's text is still the text of its scene. *)
Definition Inv (st : SimState) : Prop :=
  simplifying st = match pending st with Some _ => true | None => false end /\
  (forall i t, pending st = Some (i, t) ->
     exists s sc, sim_story st = Some s /\ scenes s !! i = Some sc /\ text sc = t).

Definition outstanding (st : SimState) : nat :=
  match pending st with Some _ => 1 | None => 0 end.

Lemma handleSimplification_none st st' :
  handleSimplification st = (st', None) -> st' = st.
Proof.
  unfold handleSimplification.
  destruct (sim_story st) as [s|]; [|congruence].
  destruct (_ && _ && _); [|congruence].
  destruct (scenes s !! sim_idx st) as [sc|]; [|congruence].
  destruct (Nat.ltb 50 _); congruence.
Qed.

Lemma handleSimplification_some st st' q :
  handleSimplification st = (st', Some q) ->
  exists s sc,
    sim_story st = Some s /\ scenes s !! sim_idx st = Some sc /\
    sim_needs st = true /\ simplifying st = false /\
    50 < String.length (text sc) /\ q = (sim_idx st, text sc) /\
    st' = mkSim (sim_story st) (sim_idx st) (sim_needs st) true (Some q).
Proof.
  unfold handleSimplification.
  destruct (sim_story st) as [s|] eqn:Hs; [|congruence].
  destruct (sim_needs st) eqn:Hn; [|simpl; congruence].
  destruct (isQuizMode st); [simpl; congruence|].
  destruct (simplifying st) eqn:Hf; [simpl; congruence|]. simpl.
  destruct (scenes s !! sim_idx st) as [sc|] eqn:Hsc; [|congruence].
  destruct (Nat.ltb 50 _) eqn:Hl; [|congruence].
  intros [= <- <-]. apply Nat.ltb_lt in Hl.
  exists s, sc. repeat split; auto.
Qed.

Lemma rerun_inv st :
  Inv st ->
  Inv (fst (rerun st)) /\ sim_story (fst (rerun st)) = sim_story st /\
  forall rest, single_flight (outstanding st) (snd (rerun st) ++ rest) =
               single_flight (outstanding (fst (rerun st))) rest.
Proof.
  intros [Hf Hp]. unfold rerun.
  destruct (handleSimplification st) as [st' [q|]] eqn:Hh.
  - destruct (handleSimplification_some _ _ _ Hh)
      as (s & sc & Hs & Hsc & _ & Hsf & _ & -> & ->).
    simpl. unfold outstanding in *. simpl.
    rewrite Hsf in Hf. destruct (pending st); [discriminate Hf|].
    split; [split; [reflexivity|] | split; [reflexivity|]].
    + intros i t [= <- <-]. exists s, sc. auto.
    + intros rest. reflexivity.
  - apply handleSimplification_none in Hh. subst st'. simpl.
    split; [split; assumption|]. split; reflexivity.
Qed.

Lemma step_inv e st :
  Inv st ->
  Inv (fst (step e st)) /\
  forall rest, single_flight (outstanding st) (snd (step e st) ++ rest) =
               single_flight (outstanding (fst (step e st))) rest.
Proof.
  intros HI. pose proof HI as [Hf Hp].
  destruct e as [b|s| | |resp]; simpl.
  - destruct (rerun_inv (mkSim (sim_story st) (sim_idx st) b (simplifying st) (pending st)))
      as (H1 & _ & H2); [exact HI|].
    split; [exact H1|exact H2].
  - destruct (sim_story st) as [s0|] eqn:Hs.
    + simpl. split; [exact HI|]. reflexivity.
    + assert (pending st = None) as Hn.
      { destruct (pending st) as [[i t]|] eqn:Hpe; [|reflexivity].
        destruct (Hp i t eq_refl) as (? & ? & Hs' & _). congruence. }
      destruct (rerun_inv (mkSim (Some s) 0 (sim_needs st) (simplifying st) (pending st)))
        as (H1 & _ & H2).
      { split; [exact Hf|]. simpl. rewrite Hn. discriminate. }
      split; [exact H1|exact H2].
  - pose proof (rerun_inv (mkSim (sim_story st) (S (sim_idx st)) (sim_needs st)
                                 (simplifying st) (pending st)) HI) as (H1 & _ & H2).
    destruct (sim_story st) as [s0|]; [|split; [exact HI|reflexivity]].
    destruct (isQuizMode st); [split; [exact HI|reflexivity]|].
    split; [exact H1|exact H2].
  - pose proof (rerun_inv (mkSim (sim_story st) (Nat.pred (sim_idx st)) (sim_needs st)
                                 (simplifying st) (pending st)) HI) as (H1 & _ & H2).
    destruct (sim_story st) as [s0|]; [|split; [exact HI|reflexivity]].
    destruct (isQuizMode st); [split; [exact HI|reflexivity]|].
    destruct (Nat.eqb (sim_idx st) 0); [split; [exact HI|reflexivity]|].
    split; [exact H1|exact H2].
  - destruct (pending st) as [[i t]|] eqn:Hpe; [|split; [exact HI|reflexivity]].
    match goal with
    | |- context [rerun ?X] =>
        destruct (rerun_inv X) as (H1 & _ & H2);
        [split; [reflexivity|simpl; discriminate]|];
        destruct (rerun X) as [st' obs] eqn:Hr
    end.
    simpl in *. split; [exact H1|].
    intros rest. unfold outstanding at 1. rewrite Hpe. simpl.
    exact (H2 rest).
Qed.

Lemma run_inv evs st :
  Inv st ->
  Inv (fst (run evs st)) /\ single_flight (outstanding st) (snd (run evs st)) = true.
Proof.
  revert st. induction evs as [|e evs IH]; intros st HI; simpl.
  - split; [exact HI|]. destruct (outstanding st); reflexivity.
  - destruct (step_inv e st HI) as [H1 H2].
    destruct (step e st) as [st1 o1] eqn:Hst. simpl in *.
    destruct (IH st1 H1) as [H3 H4].
    destruct (run evs st1) as [st2 o2]. simpl in *.
    split; [exact H3|]. rewrite H2. exact H4.
Qed.

Lemma init_inv : Inv init_state.
Proof. split; [reflexivity|]. simpl. discriminate. Qed.

Lemma rerun_story st : sim_story (fst (rerun st)) = sim_story st.
Proof.
  unfold rerun. destruct (handleSimplification st) as [st' [q|]] eqn:Hh.
  - destruct (handleSimplification_some _ _ _ Hh) as (? & ? & _ & _ & _ & _ & _ & _ & ->).
    reflexivity.
  - apply handleSimplification_none in Hh. subst st'. reflexivity.
Qed.

Lemma reachable_inv evs : Inv (fst (run evs init_state)).
Proof. apply (run_inv evs init_state init_inv). Qed.

End SimplifyProofs.

(* ------------------------------------------------------------------ *)
(** ** Claims on the simplification effect *)

Module SimplifyClaims.
Import Simplify SimplifyProofs.

(** C1: when an [EmotionSample] arrives while a scene is presented, a
    simplification request for the current scene is issued if and only if
    the sample has [needsSimplification = true], the scene's text is longer
    than 50 characters and no simplification is in flight; the request is
    for the current scene and its text; and along every run of the
    component no request is ever issued while another one is in flight. *)
Theorem C1_simplification_trigger (st : SimState) (b : bool) (s : FullStory)
  (evs : list Event)
  (Hs : sim_story st = Some s) (Hi : sim_idx st < length (scenes s)) :
  ((exists r, snd (step (ESample b) st) = [ObsIssue r]) <->
     b = true /\ simplifying st = false /\
     exists sc, scenes s !! sim_idx st = Some sc /\ 50 < String.length (text sc)) /\
  (snd (step (ESample b) st) = [] \/
   exists sc, scenes s !! sim_idx st = Some sc /\
     snd (step (ESample b) st) = [ObsIssue (sim_idx st, text sc)]) /\
  single_flight 0 (snd (run evs init_state)) = true.
Proof.
  destruct (lookup_lt_is_Some_2 (scenes s) (sim_idx st) Hi) as [sc Hsc].
  assert (Hq : Nat.leb (length (scenes s)) (sim_idx st) = false)
    by (apply Nat.leb_gt; exact Hi).
  split; [|split].
  - simpl. unfold rerun, handleSimplification, isQuizMode. simpl.
    rewrite Hs, Hq, Hsc. simpl.
    destruct b; simpl.
    + destruct (simplifying st); simpl.
      * split; [intros [r Hr]; discriminate Hr|intros (_ & Hf & _); discriminate Hf].
      * destruct (Nat.ltb 50 (String.length (text sc))) eqn:Hl.
        -- apply Nat.ltb_lt in Hl. split; [intros _; eauto|eauto].
        -- apply Nat.ltb_ge in Hl. split; [intros [r Hr]; discriminate Hr|].
           intros (_ & _ & sc' & Hsc' & Hl').
           assert (sc' = sc) as -> by congruence. lia.
    + split; [intros [r Hr]; discriminate Hr|intros (Hb & _); discriminate Hb].
  - simpl. unfold rerun, handleSimplification, isQuizMode. simpl.
    rewrite Hs, Hq, Hsc. simpl.
    destruct b, (simplifying st); simpl; try (left; reflexivity).
    destruct (Nat.ltb 50 _); [right; eauto|left; reflexivity].
  - exact (proj2 (run_inv evs init_state init_inv)).
Qed.

Definition long_text : string :=
  "Max the rover rolled across the red dusty plains of Mars looking for water.".

Definition demo_story : FullStory :=
  mkStory "s1" "Mars Rover Max"
    [mkScene "a" long_text "rover" Image None;
     mkScene "b" "Short scene." "crater" Image None]
    [] [] 0 ENGLISH.

Lemma C1_simplification_trigger_witness :
  sim_story (mkSim (Some demo_story) 0 false false None) = Some demo_story /\
  0 < length (scenes demo_story) /\
  single_flight 0 (snd (run [ESample true; ELoad demo_story; ESample true] init_state)) = true.
Proof.
  split; [reflexivity|]. split; [simpl; lia|].
  exact (proj2 (proj2 (C1_simplification_trigger
    (mkSim (Some demo_story) 0 false false None) true demo_story
    [ESample true; ELoad demo_story; ESample true] eq_refl ltac:(simpl; lia)))).
Defined.

(** C10: when the backend call throws or answers with an empty or missing
    text, [simplifyContent] returns its input text unchanged, for every
    input text; in a running component such a failed simplification
    leaves the story, and so every scene's text, unchanged. *)
Theorem C10_failed_simplification_keeps_text (resp : GenOutcome (option string))
  (Hfail : resp = Throws \/ resp = Returns None \/ resp = Returns (Some EmptyString)) :
  (forall t, simplifyContent resp t = t) /\
  (forall evs, sim_story (fst (step (EDone resp) (fst (run evs init_state)))) =
               sim_story (fst (run evs init_state))).
Proof.
  assert (Hsimp : forall t, simplifyContent resp t = t)
    by (intros t; destruct Hfail as [-> | [-> | ->]]; reflexivity).
  split; [exact Hsimp|]. intros evs.
  pose proof (reachable_inv evs) as [_ Hinv].
  remember (fst (run evs init_state)) as st eqn:Hst. clear Hst.
  destruct (pending st) as [[i t]|] eqn:Hp; [|simpl; rewrite Hp; reflexivity].
  destruct (Hinv i t eq_refl) as (s & sc & Hs & Hsc & Ht).
  simpl. rewrite Hp, Hs, Hsc, Hsimp.
  match goal with
  | |- context [rerun ?X] =>
      pose proof (rerun_story X) as Hrs; destruct (rerun X) as [st' obs]
  end.
  simpl in *. rewrite Hrs.
  assert (set_scene_text sc t = sc) as -> by (subst t; destruct sc; reflexivity).
  rewrite list_insert_id by exact Hsc.
  destruct s; reflexivity.
Qed.

Lemma C10_failed_simplification_keeps_text_witness :
  simplifyContent (Returns (Some EmptyString)) long_text = long_text /\
  sim_story (fst (step (EDone Throws) (fst (run [ESample true; ELoad demo_story] init_state)))) =
  Some demo_story.
Proof.
  split.
  - exact (proj1 (C10_failed_simplification_keeps_text (Returns (Some EmptyString))
                   (or_intror (or_intror eq_refl))) long_text).
  - rewrite (proj2 (C10_failed_simplification_keeps_text Throws (or_introl eq_refl))).
    vm_compute. reflexivity.
Defined.

End SimplifyClaims.

(* ------------------------------------------------------------------ *)
(** ** Claims on the media pipeline *)

Module MediaClaims.
Import Media.

Definition scene_a : StoryScene := mkScene "a" SimplifyClaims.long_text "rover" Image None.
Definition scene_b : StoryScene := mkScene "b" "Short scene." "crater" Image None.
Definition two_scenes : FullStory :=
  mkStory "s1" "Mars Rover Max" [scene_a; scene_b] [] [] 0 ENGLISH.

(** C2 (as stated, refuted): nothing marks a request as in flight, so
    moving to scene 1 and back to scene 0 while scene 0's media request is
    still pending issues a second request for scene 0: two acquisitions
    for the same scene are pending at once. *)
Lemma C2_two_pending_same_scene :
  length (filter (fun sc => scene_id sc = "a"%string)
            (m_pending (run [MNext; MPrev] (loaded two_scenes false SlotEmpty)))) = 2.
Proof. vm_compute. reflexivity. Qed.

(** C2 (amended): the effect issues a media request for the current scene
    exactly when the story is not in quiz mode, the scene has no stored
    [mediaUrl], the media cache has no resolved entry for its identity and
    the app is online; when the cache already holds a resolved entry for
    the scene, the effect changes nothing and issues nothing.  Pending
    requests are not consulted. *)
Theorem C2_media_request_guard (st : MediaState) :
  (forall sc, snd (mediaEffect st) = Some sc ->
     isQuizMode st = false /\ scenes (m_story st) !! m_idx st = Some sc /\
     truthy (mediaUrl sc) = false /\ truthy (mediaCache st !! scene_id sc) = false /\
     m_offline st = false) /\
  (forall sc, isQuizMode st = false -> scenes (m_story st) !! m_idx st = Some sc ->
     truthy (mediaUrl sc) = false -> truthy (mediaCache st !! scene_id sc) = false ->
     m_offline st = false ->
     mediaEffect st = (mkMedia (m_story st) (m_idx st) (m_offline st) (mediaCache st)
                               (m_pending st ++ [sc]) (m_slot st), Some sc)) /\
  (forall sc, scenes (m_story st) !! m_idx st = Some sc ->
     truthy (mediaCache st !! scene_id sc) = true -> mediaEffect st = (st, None)).
Proof.
  unfold mediaEffect. split; [|split].
  - intros sc.
    destruct (isQuizMode st) eqn:Hq; [discriminate|].
    destruct (scenes (m_story st) !! m_idx st) as [sc'|] eqn:Hsc; [|discriminate].
    destruct (truthy (mediaUrl sc')) eqn:Hu;
      destruct (truthy (mediaCache st !! scene_id sc')) eqn:Hc;
      destruct (m_offline st) eqn:Ho; simpl; try discriminate.
    intros [= <-]. auto.
  - intros sc Hq Hsc Hu Hc Ho. rewrite Hq, Hsc, Hu, Hc, Ho. reflexivity.
  - intros sc Hsc Hc. rewrite Hsc, Hc.
    destruct (isQuizMode st); [reflexivity|].
    rewrite andb_false_r. reflexivity.
Qed.

Lemma C2_media_request_guard_witness :
  snd (mediaEffect (mkMedia two_scenes 0 false (∅ : gmap string string) [] SlotEmpty)) = Some scene_a.
Proof.
  pose proof (proj1 (proj2 (C2_media_request_guard
    (mkMedia two_scenes 0 false (∅ : gmap string string) [] SlotEmpty))) scene_a) as H.
  rewrite H; [reflexivity|..]; vm_compute; reflexivity.
Defined.

(** C3: for a video scene whose video generation throws, [generateVisuals]
    tries the high-tier image model next and, when that throws too, the
    flash image model; it returns what the flash call yields, [undefined]
    when that call fails as well; and resolving a media request with
    [undefined] writes neither the media cache nor the offline story cache. *)
Theorem C3_video_fallback_chain (prompt : string) (flash : GenOutcome (list Part))
  (st : MediaState) (k : nat) (write_ok : bool) :
  snd (generateVisuals prompt Video VideoThrows Throws flash) =
    [AVideo (prompt +:+ video_suffix); AProImage (prompt +:+ image_suffix);
     AFlashImage (prompt +:+ image_suffix)] /\
  fst (generateVisuals prompt Video VideoThrows Throws flash) =
    fst (generateFlashImage prompt flash) /\
  ((flash = Throws \/ exists ps, flash = Returns ps /\ first_inline ps = None) ->
     fst (generateVisuals prompt Video VideoThrows Throws flash) = None /\
     mediaCache (step (MResolve k (fst (generateVisuals prompt Video VideoThrows Throws flash))
                                write_ok) st) = mediaCache st /\
     m_slot (step (MResolve k (fst (generateVisuals prompt Video VideoThrows Throws flash))
                            write_ok) st) = m_slot st).
Proof.
  split; [reflexivity|]. split; [reflexivity|].
  intros Hf.
  assert (Hn : fst (generateVisuals prompt Video VideoThrows Throws flash) = None).
  { destruct Hf as [-> | (ps & -> & Hps)]; simpl; [reflexivity|]. exact Hps. }
  rewrite Hn. split; [reflexivity|].
  simpl. destruct (m_pending st !! k); split; reflexivity.
Qed.

Lemma C3_video_fallback_chain_witness :
  fst (generateVisuals "a robot" Video VideoThrows Throws Throws) = None.
Proof.
  exact (proj1 (proj2 (proj2 (C3_video_fallback_chain "a robot" Throws
           (loaded two_scenes false SlotEmpty) 0 true)) (or_introl eq_refl))).
Defined.

End MediaClaims.

(* ------------------------------------------------------------------ *)
(** ** The Local Story Cache *)

Module StorageProofs.

Definition not_id (k : string) (s : FullStory) : Prop := story_id s <> k.

Lemma filter_not_id_idem k (l : list FullStory) :
  filter (not_id k) (filter (not_id k) l) = filter (not_id k) l.
Proof.
  induction l as [|x l IH]; [reflexivity|].
  rewrite filter_cons. case_decide as H.
  - rewrite filter_cons. rewrite decide_True by exact H. f_equal. exact IH.
  - exact IH.
Qed.

Lemma filter_not_id_all k (l : list FullStory) :
  (forall x, x ∈ l -> story_id x <> k) -> filter (not_id k) l = l.
Proof.
  induction l as [|x l IH]; intros Hall; [reflexivity|].
  rewrite filter_cons. rewrite decide_True.
  - f_equal. apply IH. intros y Hy. apply Hall. by constructor.
  - apply Hall. by constructor.
Qed.

Lemma dedup_ids_seen_ext s1 s2 l :
  (forall z, z ∈ s1 <-> z ∈ s2) -> dedup_ids s1 l = dedup_ids s2 l.
Proof.
  revert s1 s2. induction l as [|x l IH]; intros s1 s2 Heq; [reflexivity|].
  simpl. destruct (bool_decide (story_id x ∈ s1)) eqn:H1;
    destruct (bool_decide (story_id x ∈ s2)) eqn:H2.
  - apply IH. exact Heq.
  - apply bool_decide_eq_true in H1. apply bool_decide_eq_false in H2.
    exfalso. apply H2. apply Heq. exact H1.
  - apply bool_decide_eq_false in H1. apply bool_decide_eq_true in H2.
    exfalso. apply H1. apply Heq. exact H2.
  - f_equal. apply IH. intros z. rewrite !elem_of_cons. rewrite Heq. tauto.
Qed.

Lemma dedup_ids_cons_seen k seen l :
  dedup_ids (k :: seen) l = filter (not_id k) (dedup_ids seen l).
Proof.
  revert seen. induction l as [|x l IH]; intros seen; [reflexivity|].
  simpl. destruct (bool_decide (story_id x ∈ seen)) eqn:Hs.
  - apply bool_decide_eq_true in Hs.
    rewrite bool_decide_true by (apply elem_of_cons; right; exact Hs).
    apply IH.
  - apply bool_decide_eq_false in Hs.
    destruct (decide (story_id x = k)) as [Hk|Hk].
    + rewrite bool_decide_true by (apply elem_of_cons; left; exact Hk).
      rewrite filter_cons, decide_False by (unfold not_id; tauto).
      rewrite IH.
      rewrite (dedup_ids_seen_ext (story_id x :: seen) (k :: seen))
        by (intros z; rewrite !elem_of_cons; subst k; tauto).
      rewrite IH. symmetry. apply filter_not_id_idem.
    + rewrite bool_decide_false by (rewrite elem_of_cons; tauto).
      rewrite filter_cons, decide_True by exact Hk.
      f_equal. rewrite <- IH.
      apply dedup_ids_seen_ext. intros z. rewrite !elem_of_cons. tauto.
Qed.

Lemma latest_distinct_snoc saves s :
  latest_distinct (saves ++ [s]) = s :: filter (not_id (story_id s)) (latest_distinct saves).
Proof.
  unfold latest_distinct. rewrite reverse_snoc. simpl.
  try rewrite bool_decide_false by (apply not_elem_of_nil).
  f_equal. apply dedup_ids_cons_seen.
Qed.

Lemma dedup_ids_elem z seen l :
  z ∈ map story_id (dedup_ids seen l) <-> z ∈ map story_id l /\ z ∉ seen.
Proof.
  revert seen. induction l as [|x l IH]; intros seen; simpl.
  - split; [intros H; inversion H|intros [H _]; inversion H].
  - destruct (bool_decide (story_id x ∈ seen)) eqn:Hs.
    + apply bool_decide_eq_true in Hs. rewrite IH, elem_of_cons.
      split; [tauto|]. intros [[-> | H] Hn]; [contradiction|tauto].
    + apply bool_decide_eq_false in Hs. simpl. rewrite !elem_of_cons, IH, elem_of_cons.
      split.
      * intros [-> | [H Hn]]; [tauto|]. split; [tauto|]. tauto.
      * intros [[-> | H] Hn]; [tauto|].
        destruct (decide (z = story_id x)); [tauto|]. right. tauto.
Qed.

Lemma dedup_ids_nodup seen l : NoDup (map story_id (dedup_ids seen l)).
Proof.
  revert seen. induction l as [|x l IH]; intros seen; simpl; [constructor|].
  destruct (bool_decide (story_id x ∈ seen)); [apply IH|].
  simpl. constructor; [|apply IH].
  rewrite dedup_ids_elem, elem_of_cons. tauto.
Qed.

Lemma take_filter_take k n (L : list FullStory) :
  NoDup (map story_id L) ->
  take n (filter (not_id k) (take (S n) L)) = take n (filter (not_id k) L).
Proof.
  revert n. induction L as [|x L IH]; intros n Hnd; [reflexivity|].
  simpl in Hnd. apply NoDup_cons in Hnd as [Hx Hnd].
  simpl. rewrite !filter_cons. case_decide as Hk.
  - destruct n as [|n]; [reflexivity|]. simpl. f_equal. apply IH. exact Hnd.
  - unfold not_id in Hk. apply dec_stable in Hk.
    assert (Hall : forall y, y ∈ L -> story_id y <> k).
    { intros y Hy Hyk. apply Hx. rewrite Hk, <- Hyk.
      apply list_elem_of_fmap_2. exact Hy. }
    rewrite (filter_not_id_all k L Hall).
    rewrite (filter_not_id_all k (take n L)).
    + rewrite take_take. f_equal. lia.
    + intros y Hy. apply Hall. apply (subseteq_take n L). exact Hy.
Qed.

Lemma save_all_app slot saves x :
  save_all slot (saves ++ [x]) = saveStoryOffline (fst x) (save_all slot saves) (snd x).
Proof.
  revert slot. induction saves as [|[ok s] saves IH]; intros slot; simpl.
  - destruct x; reflexivity.
  - apply IH.
Qed.

Lemma save_all_ok saves :
  Forall (fun x => fst x = true) saves ->
  read_slot (save_all SlotEmpty saves) = Some (take 5 (latest_distinct (map snd saves))).
Proof.
  induction saves as [|x saves IH] using rev_ind; intros Hok; [reflexivity|].
  apply Forall_app in Hok as [Hok Hlast].
  inversion Hlast as [|? ? Hx _]; subst.
  destruct x as [ok s]. cbn in Hx. subst ok.
  rewrite save_all_app. cbn [fst snd].
  unfold saveStoryOffline. rewrite (IH Hok).
  rewrite map_app. simpl. rewrite latest_distinct_snoc.
  simpl. f_equal. f_equal.
  exact (take_filter_take (story_id s) 4 _ (dedup_ids_nodup _ _)).
Qed.

End StorageProofs.

Module StorageClaims.
Import StorageProofs.

Lemma elem_of_map_id z (l : list FullStory) :
  z ∈ map story_id l <-> exists y, y ∈ l /\ story_id y = z.
Proof.
  rewrite list_elem_of_In, in_map_iff.
  split; intros [y [H1 H2]]; exists y; split; try rewrite list_elem_of_In in *; auto.
Qed.

Lemma nodup_map_take n (l : list FullStory) :
  NoDup (map story_id l) -> NoDup (map story_id (take n l)).
Proof.
  intros H. rewrite <- (take_drop n l), map_app in H.
  apply NoDup_app in H as [H _]. exact H.
Qed.

Lemma latest_distinct_ids z saves :
  z ∈ map story_id (latest_distinct saves) <-> z ∈ map story_id saves.
Proof.
  unfold latest_distinct. rewrite dedup_ids_elem, !elem_of_map_id.
  split.
  - intros [[y [Hy Hz]] _]. exists y. rewrite elem_of_reverse in Hy. auto.
  - intros [y [Hy Hz]]. split; [|apply not_elem_of_nil].
    exists y. rewrite elem_of_reverse. auto.
Qed.

Definition story1 : FullStory := mkStory "s1" "Mars Rover Max" [] [] [] 0 ENGLISH.
Definition story2 : FullStory := mkStory "s2" "Ocean Deep" [] [] [] 1 ENGLISH.

(** C4 (as stated, refuted): two saves of distinct stories where the
    second [localStorage.setItem] throws (storage full): the cache holds
    one entry, not [min(2, 5) = 2]. *)
Lemma C4_quota_save_not_kept :
  read_slot (save_all SlotEmpty [(true, story1); (false, story2)]) = Some [story1] /\
  size (list_to_set (map story_id [story1; story2]) : gset string) = 2.
Proof. split; [reflexivity|]. vm_compute. reflexivity. Qed.

(** C4 (amended): starting from an empty cache, when every save's storage
    write succeeds, after the saves the cache holds exactly the first five
    of the saved stories' distinct identities, most recent first, each in
    its latest version: [min(#distinct ids, 5)] entries without duplicate
    identities.  A save whose write fails leaves the stored cache as it
    was. *)
Theorem C4_cache_after_saves (saves : list (bool * FullStory))
  (Hok : Forall (fun x => fst x = true) saves) :
  read_slot (save_all SlotEmpty saves) = Some (take 5 (latest_distinct (map snd saves))) /\
  length (take 5 (latest_distinct (map snd saves))) =
    Nat.min (size (list_to_set (map story_id (map snd saves)) : gset string)) 5 /\
  NoDup (map story_id (take 5 (latest_distinct (map snd saves)))) /\
  (forall slot s, saveStoryOffline false slot s = slot).
Proof.
  split; [exact (save_all_ok saves Hok)|].
  split; [|split].
  - rewrite length_take, Nat.min_comm. f_equal.
    assert (Hset : (list_to_set (map story_id (map snd saves)) : gset string) =
                   list_to_set (map story_id (latest_distinct (map snd saves)))).
    { apply set_eq. intros z. rewrite !elem_of_list_to_set.
      symmetry. apply latest_distinct_ids. }
    rewrite Hset, size_list_to_set by apply dedup_ids_nodup.
    symmetry. apply length_map.
  - apply nodup_map_take. apply dedup_ids_nodup.
  - intros slot s. unfold saveStoryOffline. destruct (read_slot slot); reflexivity.
Qed.

Lemma C4_cache_after_saves_witness :
  read_slot (save_all SlotEmpty [(true, story1); (true, story2); (true, story1)]) =
    Some [story1; story2].
Proof.
  exact (proj1 (C4_cache_after_saves [(true, story1); (true, story2); (true, story1)]
    ltac:(repeat constructor))).
Defined.

End StorageClaims.

Module PatchClaims.

Definition cached_story : FullStory :=
  mkStory "s1" "Mars Rover Max" [MediaClaims.scene_a; MediaClaims.scene_b] [] [] 0 ENGLISH.

(** C5 (as stated, refuted): both identities are present, but the
    [setItem] of the patched stories throws (a media data URL easily
    exceeds the storage quota); the error is caught and the stored cache
    keeps the scene without its media: nothing is persisted. *)
Lemma C5_patch_not_persisted_on_quota :
  updateStorySceneMedia false (SlotStories [cached_story]) "s1" "a" "data:video/mp4;base64,AAAA" =
    SlotStories [cached_story] /\
  (list_find (fun s => story_id s = "s1"%string) [cached_story] = Some (0, cached_story)) /\
  (list_find (fun sc => scene_id sc = "a"%string) (scenes cached_story) =
     Some (0, MediaClaims.scene_a)).
Proof. split; [reflexivity|]. split; vm_compute; reflexivity. Qed.

(** C5 (amended): [updateStorySceneMedia] never fails (every path returns
    a cache); it leaves the cache unchanged when the cache is absent or
    unreadable, when no cached story has the story identity, when the first
    story with that identity has no scene with the scene identity, or when
    the write to storage fails; otherwise it persists the stories with only
    the first matching scene of the first matching story changed, whose
    media reference becomes the new one. *)
Theorem C5_patch_scene_media (ok : bool) (slot : Slot) (storyId sceneId url : string) :
  (slot = SlotEmpty \/ slot = SlotCorrupt ->
     updateStorySceneMedia ok slot storyId sceneId url = slot) /\
  (forall stories, slot = SlotStories stories ->
     Forall (fun s => story_id s <> storyId) stories ->
     updateStorySceneMedia ok slot storyId sceneId url = slot) /\
  (forall stories si s, slot = SlotStories stories ->
     list_find (fun s => story_id s = storyId) stories = Some (si, s) ->
     Forall (fun sc => scene_id sc <> sceneId) (scenes s) ->
     updateStorySceneMedia ok slot storyId sceneId url = slot) /\
  (ok = false -> updateStorySceneMedia ok slot storyId sceneId url = slot) /\
  (forall stories si s ci sc, slot = SlotStories stories -> ok = true ->
     list_find (fun s => story_id s = storyId) stories = Some (si, s) ->
     list_find (fun sc => scene_id sc = sceneId) (scenes s) = Some (ci, sc) ->
     exists stories' s',
       updateStorySceneMedia ok slot storyId sceneId url = SlotStories stories' /\
       length stories' = length stories /\
       (forall j, j <> si -> stories' !! j = stories !! j) /\
       stories' !! si = Some s' /\
       s' = set_story_scenes s (scenes s') /\
       length (scenes s') = length (scenes s) /\
       (forall c, c <> ci -> scenes s' !! c = scenes s !! c) /\
       scenes s' !! ci = Some (set_scene_media sc url) /\
       scene_id (set_scene_media sc url) = sceneId /\
       text (set_scene_media sc url) = text sc).
Proof.
  split; [|split; [|split; [|split]]].
  - intros [-> | ->]; reflexivity.
  - intros stories -> Hall. simpl.
    assert (Hn : list_find (fun s => story_id s = storyId) stories = None)
      by (apply list_find_None; exact Hall).
    rewrite Hn. reflexivity.
  - intros stories si s -> Hf Hall. simpl. rewrite Hf.
    assert (Hn : list_find (fun sc => scene_id sc = sceneId) (scenes s) = None)
      by (apply list_find_None; exact Hall).
    rewrite Hn. reflexivity.
  - intros ->. unfold updateStorySceneMedia.
    destruct slot as [| |stories]; try reflexivity.
    destruct (list_find _ stories) as [[si s]|]; [|reflexivity].
    destruct (list_find _ (scenes s)) as [[ci sc]|]; reflexivity.
  - intros stories si s ci sc -> -> Hf Hc. simpl. rewrite Hf, Hc.
    apply list_find_Some in Hf as (Hsi & Hid & _).
    apply list_find_Some in Hc as (Hci & Hsid & _).
    pose proof (lookup_lt_Some _ _ _ Hsi) as Hlt.
    pose proof (lookup_lt_Some _ _ _ Hci) as Hltc.
    eexists _, _. split; [reflexivity|].
    split; [apply length_insert|].
    split; [intros j Hj; apply list_lookup_insert_ne; congruence|].
    split; [apply list_lookup_insert_eq; exact Hlt|].
    split; [reflexivity|]. simpl.
    split; [apply length_insert|].
    split; [intros c Hcne; apply list_lookup_insert_ne; congruence|].
    split; [apply list_lookup_insert_eq; exact Hltc|].
    split; [exact Hsid|reflexivity].
Qed.

Lemma C5_patch_scene_media_witness :
  updateStorySceneMedia true (SlotStories [cached_story]) "s9" "a" "u" =
    SlotStories [cached_story].
Proof.
  exact (proj1 (proj2 (C5_patch_scene_media true (SlotStories [cached_story]) "s9" "a" "u"))
    [cached_story] eq_refl ltac:(repeat constructor; simpl; discriminate)).
Defined.

End PatchClaims.

(* ------------------------------------------------------------------ *)
(** ** Claims on quiz scoring *)

Module QuizClaims.

(** C6: the first answer to a quiz question adds 1 to [quizzesPassed] and
    50 to [totalPoints] when correct, 10 points and no pass when
    incorrect, and touches no other counter; once answered, any further
    click on that question changes neither the quiz state nor the
    progress. *)
Theorem C6_quiz_answer_scoring (qs : gmap nat bool) (p : UserProgress) (q : nat)
  (b b' : bool) (Hnew : qs !! q = None) :
  (b = true ->
     quizzesPassed (snd (clickQuizOption q b qs p)) = (quizzesPassed p + 1)%Z /\
     totalPoints (snd (clickQuizOption q b qs p)) = (totalPoints p + 50)%Z) /\
  (b = false ->
     quizzesPassed (snd (clickQuizOption q b qs p)) = quizzesPassed p /\
     totalPoints (snd (clickQuizOption q b qs p)) = (totalPoints p + 10)%Z) /\
  badges (snd (clickQuizOption q b qs p)) = badges p /\
  storiesCompleted (snd (clickQuizOption q b qs p)) = storiesCompleted p /\
  literacyScore (snd (clickQuizOption q b qs p)) = literacyScore p /\
  engagementScore (snd (clickQuizOption q b qs p)) = engagementScore p /\
  clickQuizOption q b' (fst (clickQuizOption q b qs p)) (snd (clickQuizOption q b qs p)) =
    clickQuizOption q b qs p.
Proof.
  unfold clickQuizOption at 1 2 3 4 5 6 7 8 9 10 11. rewrite Hnew.
  simpl. split; [intros ->; split; reflexivity|].
  split; [intros ->; split; reflexivity|].
  do 4 (split; [reflexivity|]).
  unfold clickQuizOption. rewrite Hnew. simpl.
  rewrite lookup_insert_eq. reflexivity.
Qed.

Definition start_progress : UserProgress :=
  mkProgress ["Space Explorer"%string] 15 42 1850 [] [].

Lemma C6_quiz_answer_scoring_witness :
  quizzesPassed (snd (clickQuizOption 0 true ∅ start_progress)) = 43%Z.
Proof.
  exact (proj1 (proj1 (C6_quiz_answer_scoring ∅ start_progress 0 true false
                          ltac:(apply lookup_empty)) eq_refl)).
Defined.

End QuizClaims.

(* ------------------------------------------------------------------ *)
(** ** Claims on the Response Parser and the emotion classifier *)

Module ParseClaims.

Lemma indexOf_lt c s i : indexOf c s = Some i -> i < length s.
Proof.
  revert i. induction s as [|d s IH]; intros i H; simpl in H; [discriminate|].
  destruct (Ascii.eqb c d).
  - injection H as <-. simpl. lia.
  - destruct (indexOf c s) as [j|] eqn:Hj; simpl in H; [|discriminate].
    injection H as <-. simpl. specialize (IH j eq_refl). lia.
Qed.

Lemma lastIndexOf_lt c s i : lastIndexOf c s = Some i -> i < length s.
Proof.
  unfold lastIndexOf. destruct (indexOf c (reverse s)) as [j|] eqn:Hj; simpl; [|discriminate].
  intros [= <-]. apply indexOf_lt in Hj. rewrite length_reverse in Hj. lia.
Qed.

(** C7: [parseJSON] first parses the text with its code fences removed
    and trimmed; only when that throws does it make one more attempt, on
    the text from the first ['{'] to the last ['}'] (when both occur, in
    that order); it calls [JSON.parse] at most twice, returns [null] when
    the attempts made all fail, and never throws.  Its callers treat
    [null] as a failed generation: [generateFullStory] returns [null]
    and [analyzeLearnerEmotion] the neutral sample. *)
Theorem C7_parse_recovery (JSON_parse : list ascii -> option Json)
  (prim : Json -> option Q) (t : list ascii) :
  head (snd (parseJSON JSON_parse t)) = Some (trim (strip_fences t)) /\
  length (snd (parseJSON JSON_parse t)) <= 2 /\
  (forall v, JSON_parse (trim (strip_fences t)) = Some v ->
     parseJSON JSON_parse t = (Some v, [trim (strip_fences t)])) /\
  (forall f l, JSON_parse (trim (strip_fences t)) = None ->
     indexOf "{"%char t = Some f -> lastIndexOf "}"%char t = Some l -> f <= l ->
     parseJSON JSON_parse t =
       (JSON_parse (take (S l - f) (drop f t)),
        [trim (strip_fences t); take (S l - f) (drop f t)])) /\
  ((forall s, s ∈ snd (parseJSON JSON_parse t) -> JSON_parse s = None) ->
     fst (parseJSON JSON_parse t) = None) /\
  (forall txt flash now36 rand36 now lang,
     fst (parseJSON JSON_parse (list_ascii_of_string (or_default txt "{}"))) = None ->
     generateFullStory JSON_parse (Returns txt) flash now36 rand36 now lang = None /\
     analyzeLearnerEmotion JSON_parse prim (Returns txt) = neutral_result).
Proof.
  split; [|split; [|split; [|split; [|split]]]]; [unfold parseJSON..|].
  - destruct (JSON_parse _); [reflexivity|].
    destruct (indexOf "{"%char t), (lastIndexOf "}"%char t); reflexivity.
  - destruct (JSON_parse _); [simpl; lia|].
    destruct (indexOf "{"%char t), (lastIndexOf "}"%char t); simpl; lia.
  - intros v ->. reflexivity.
  - intros f l Hn Hf Hl Hle. rewrite Hn, Hf, Hl.
    pose proof (lastIndexOf_lt _ _ _ Hl) as Hlt.
    unfold js_substring.
    replace (Nat.min f (length t)) with f by lia.
    replace (Nat.min (l + 1) (length t)) with (S l) by lia.
    replace (Nat.min f (S l)) with f by lia.
    replace (Nat.max f (S l)) with (S l) by lia.
    reflexivity.
  - destruct (JSON_parse (trim (strip_fences t))) as [v|] eqn:Hv.
    + intros H. rewrite (H _ (list_elem_of_here _ _)) in Hv. discriminate.
    + destruct (indexOf "{"%char t), (lastIndexOf "}"%char t); simpl; intros H; try reflexivity.
      apply H. apply elem_of_cons. right. apply elem_of_cons. left. reflexivity.
  - intros txt flash now36 rand36 now lang Hnone. split.
    + unfold generateFullStory. rewrite Hnone. reflexivity.
    + unfold analyzeLearnerEmotion. rewrite Hnone. reflexivity.
Qed.

(** A [JSON.parse] that knows one document. *)
Definition dq : string := String (Ascii.ascii_of_nat 34) EmptyString.
Definition quoted (s : string) : string := dq +:+ s +:+ dq.
Definition doc_json : string :=
  "{" +:+ quoted "emotion" +:+ ":" +:+ quoted "CONFUSED" +:+ "," +:+
  quoted "confidence" +:+ ":0.9}".
Definition doc_text : string := "noise " +:+ doc_json +:+ " trailing".
Definition doc_value : Json := JObj [("emotion", JStr "CONFUSED"); ("confidence", JNum (9 # 10))].
Definition doc_parse (s : list ascii) : option Json :=
  if String.eqb (string_of_list_ascii s) doc_json then Some doc_value else None.

Lemma C7_parse_recovery_witness :
  parseJSON doc_parse (list_ascii_of_string doc_text) =
    (Some doc_value,
     [list_ascii_of_string doc_text;
      list_ascii_of_string doc_json]).
Proof.
  rewrite (proj1 (proj2 (proj2 (proj2 (C7_parse_recovery doc_parse (fun _ => None)
             (list_ascii_of_string doc_text))))) 6 44); vm_compute; try reflexivity; lia.
Defined.

(** C8: the sample's [needsSimplification] is true exactly when the
    classifier's answer parses to an object whose [emotion] is the string
    ["CONFUSED"] and whose confidence (0 when missing or falsy) exceeds
    0.6; no other field of the answer is consulted.  For a numeric
    confidence [c] the test is [c > 0.6]; a missing confidence never
    passes it. *)
Theorem C8_needs_simplification (JSON_parse : list ascii -> option Json)
  (prim : Json -> option Q) (resp : GenOutcome (option string)) :
  (needsSimplification (analyzeLearnerEmotion JSON_parse prim resp) = true <->
   exists txt fields,
     resp = Returns txt /\
     fst (parseJSON JSON_parse (list_ascii_of_string (or_default txt "{}"))) = Some (JObj fields) /\
     obj_get "emotion" fields = Some (JStr "CONFUSED") /\
     gt_threshold prim (js_or (obj_get "confidence" fields) (JNum 0%Q)) = true) /\
  (forall c : Q, gt_threshold prim (js_or (Some (JNum c)) (JNum 0%Q)) = true <-> (6 # 10 < c)%Q) /\
  gt_threshold prim (js_or None (JNum 0%Q)) = false.
Proof.
  split; [|split].
  - destruct resp as [|txt]; simpl.
    + split; [discriminate|]. intros (? & ? & H & _). discriminate H.
    + destruct (fst (parseJSON JSON_parse _)) as [d|] eqn:Hd.
      * destruct d as [| | | | |fields]; simpl;
          try (split; [discriminate|]; intros (? & ? & [= <-] & H & _); congruence).
        split.
        -- intros H. apply andb_true_iff in H as [He Hc].
           destruct (obj_get "emotion" fields) as [[| | |s| |]|] eqn:Hem; try discriminate.
           apply String.eqb_eq in He. subst s.
           exists txt, fields. auto.
        -- intros (txt' & fields' & [= <-] & Hd' & He & Hc).
           rewrite Hd in Hd'. injection Hd' as <-.
           rewrite He, Hc. reflexivity.
      * split; [discriminate|]. intros (? & ? & [= <-] & H & _). congruence.
  - intros c. unfold gt_threshold, js_or, to_number. simpl.
    destruct (Qeq_bool c 0) eqn:H0; simpl.
    + apply Qeq_bool_iff in H0. split; [discriminate|].
      intros Hlt. rewrite H0 in Hlt. discriminate Hlt.
    + rewrite negb_true_iff, <- not_true_iff_false, Qle_bool_iff.
      split; [apply Qnot_le_lt|apply Qlt_not_le].
  - reflexivity.
Qed.

Lemma C8_needs_simplification_witness :
  needsSimplification (analyzeLearnerEmotion doc_parse (fun _ => None)
                         (Returns (Some doc_text))) = true.
Proof.
  apply (proj2 (proj1 (C8_needs_simplification doc_parse (fun _ => None)
                         (Returns (Some doc_text))))).
  exists (Some doc_text), [("emotion", JStr "CONFUSED"); ("confidence", JNum (9 # 10))].
  split; [reflexivity|]. vm_compute. auto.
Defined.

End ParseClaims.

(* ------------------------------------------------------------------ *)
(** ** Claims on story generation *)

Module GenerateClaims.
Import ParseClaims.

Lemma fold_get_map (k : string) (v : Json) (fs : list (string * Json)) (acc : option Json) :
  fold_left (fun (acc : option Json) (kv : string * Json) => if String.eqb (fst kv) k then Some (snd kv) else acc)
    (map (fun kv => if String.eqb (fst kv) k then (k, v) else kv) fs) acc =
  if existsb (fun kv => String.eqb (fst kv) k) fs then Some v else acc.
Proof.
  revert acc. induction fs as [|[k' v'] fs IH]; intros acc; [reflexivity|].
  simpl. destruct (String.eqb k' k) eqn:Hk; simpl.
  - rewrite String.eqb_refl, IH. destruct (existsb _ fs); reflexivity.
  - rewrite Hk, IH. reflexivity.
Qed.

Lemma obj_get_set_field k v fs : obj_get k (set_field k v fs) = Some v.
Proof.
  unfold obj_get, set_field. destruct (existsb _ fs) eqn:He.
  - rewrite fold_get_map, He. reflexivity.
  - rewrite fold_left_app. simpl. rewrite String.eqb_refl. reflexivity.
Qed.

Definition scenes3_json : string :=
  "{" +:+ quoted "title" +:+ ":" +:+ quoted "T" +:+ "," +:+
  quoted "scenes" +:+ ":[{},{},{}]}".
Definition scenes3_parse (s : list ascii) : option Json :=
  if String.eqb (string_of_list_ascii s) scenes3_json
  then Some (JObj [("title", JStr "T"); ("scenes", JArr [JObj []; JObj []; JObj []])])
  else None.

(** C9 (code bug): [generateFullStory] is documented to generate a
    complete 5 scene story, yet its only check is [!data.scenes]: a model
    answer with three scenes gives a successful story with three scenes. *)
Lemma C9_three_scene_story :
  exists g, generateFullStory scenes3_parse (Returns (Some scenes3_json)) Throws
              (fun _ => "lx3k"%string) (fun n => "0." +:+ pretty (N.of_nat n)) 0 ENGLISH = Some g /\
            length (g_scenes g) = 3.
Proof. vm_compute. eexists. split; reflexivity. Qed.

End GenerateClaims.

(* ------------------------------------------------------------------ *)
(** * Further properties of the code *)


(* ------------------------------------------------------------------ *)
(** ** Further properties of the Local Story Cache *)

Module StorageExtras.
Import StorageProofs.

(** Replacing an element by one with the same image leaves the image of
    the list unchanged. *)
Lemma map_insert_same {A B} (f : A -> B) (l : list A) i x y :
  l !! i = Some x -> f y = f x -> map f (<[i := y]> l) = map f l.
Proof.
  revert i. induction l as [|z l IH]; intros [|i] Hi Hf; try discriminate; simpl.
  - injection Hi as ->. rewrite Hf. reflexivity.
  - f_equal. apply IH; assumption.
Qed.

Lemma list_find_insert_same {A} (P : A -> Prop) `{forall x, Decision (P x)}
    (l : list A) i x y :
  list_find P l = Some (i, x) -> P y -> list_find P (<[i := y]> l) = Some (i, y).
Proof.
  intros Hf Hy. apply list_find_Some in Hf as (Hi & _ & Hbefore).
  apply list_find_Some. split; [|split; [exact Hy|]].
  - apply list_lookup_insert_eq. apply lookup_lt_is_Some_1. rewrite Hi. eauto.
  - intros j z Hj Hlt. rewrite list_lookup_insert_ne in Hj by lia.
    exact (Hbefore j z Hj Hlt).
Qed.

Lemma filter_take_not_id k n (L : list FullStory) :
  filter (fun x => story_id x <> k) (take n (filter (fun x => story_id x <> k) L)) =
  take n (filter (fun x => story_id x <> k) L).
Proof.
  apply (filter_not_id_all k). intros x Hx.
  apply (subseteq_take n) in Hx. apply list_elem_of_filter in Hx. exact (proj1 Hx).
Qed.

Lemma filter_id_none k (L : list FullStory) :
  filter (fun x => story_id x = k) (filter (not_id k) L) = [].
Proof.
  induction L as [|x L IH]; [reflexivity|].
  rewrite filter_cons. case_decide as Hk.
  - rewrite filter_cons, decide_False by exact Hk. exact IH.
  - exact IH.
Qed.

Lemma nodup_ids_filter k (L : list FullStory) :
  NoDup (map story_id L) -> NoDup (map story_id (filter (not_id k) L)).
Proof.
  intros Hnd. eapply sublist_NoDup; [exact Hnd|].
  apply (fmap_sublist story_id). apply sublist_filter.
Qed.

Lemma nodup_ids_take n (L : list FullStory) :
  NoDup (map story_id L) -> NoDup (map story_id (take n L)).
Proof.
  intros Hnd. eapply sublist_NoDup; [exact Hnd|].
  apply (fmap_sublist story_id). apply sublist_take.
Qed.

Lemma save_keeps_ids_distinct ok slot s :
  NoDup (map story_id (getOfflineStories slot)) ->
  NoDup (map story_id (getOfflineStories (saveStoryOffline ok slot s))).
Proof.
  intros Hnd. unfold saveStoryOffline.
  destruct (read_slot slot) as [l|] eqn:Hr; [|exact Hnd].
  destruct ok; [|exact Hnd].
  unfold getOfflineStories in *. rewrite Hr in Hnd. simpl. constructor.
  - intros Hin. apply list_elem_of_fmap in Hin as (y & Hy & Hin).
    apply (subseteq_take 4) in Hin.
    apply list_elem_of_filter in Hin as [Hne _]. exact (Hne (eq_sym Hy)).
  - apply nodup_ids_take. exact (nodup_ids_filter (story_id s) l Hnd).
Qed.

Lemma patch_keeps_ids ok slot sid cid u :
  map story_id (getOfflineStories (updateStorySceneMedia ok slot sid cid u)) =
  map story_id (getOfflineStories slot).
Proof.
  destruct slot as [| |l]; try reflexivity. simpl.
  destruct (list_find _ l) as [[si st]|] eqn:Hf; [|reflexivity].
  destruct (list_find _ (scenes st)) as [[ci sc]|]; [|reflexivity].
  destruct ok; [|reflexivity]. simpl.
  apply list_find_Some in Hf as (Hi & _ & _).
  exact (map_insert_same story_id l si st (set_story_scenes st _) Hi eq_refl).
Qed.

(** Reading the cache back after a successful save into a readable
    cache: the saved story comes first and its identity occurs once; at
    most five stories are kept; the others are stories stored before, in
    their stored order; and when at most four stored stories have another
    identity, all of them are kept. *)
Theorem save_then_read (slot : Slot) (s : FullStory) (Hr : slot <> SlotCorrupt) :
  let L := getOfflineStories slot in
  let L' := getOfflineStories (saveStoryOffline true slot s) in
  head L' = Some s /\
  length (filter (fun x => story_id x = story_id s) L') = 1 /\
  length L' <= 5 /\
  tail L' `sublist_of` L /\
  (length (filter (fun x => story_id x <> story_id s) L) <= 4 ->
   forall x, x ∈ L -> story_id x <> story_id s -> x ∈ L').
Proof.
  cbv zeta.
  assert (Hget : getOfflineStories (saveStoryOffline true slot s) =
    s :: take 4 (filter (not_id (story_id s)) (getOfflineStories slot))).
  { destruct slot as [| |l]; [reflexivity|contradiction|reflexivity]. }
  rewrite Hget. split; [reflexivity|]. split.
  { rewrite filter_cons, decide_True by reflexivity. simpl. f_equal.
    rewrite <- (filter_take_not_id (story_id s) 4).
    rewrite filter_id_none. reflexivity. }
  split; [simpl; rewrite length_take; lia|]. split.
  { simpl. etrans; [apply sublist_take|apply sublist_filter]. }
  intros Hle x Hx Hid. apply elem_of_cons. right.
  rewrite take_ge by exact Hle. apply list_elem_of_filter. split; [exact Hid|exact Hx].
Qed.

Definition volcano_story : FullStory :=
  mkStory "q1" "Volcano Valley" [mkScene "v1" "Lava glows in the dark." "volcano" Image None]
    [] [] 0 ENGLISH.
Definition volcano_old : FullStory :=
  mkStory "q1" "Volcano Valley (draft)" [] [] [] 0 ENGLISH.
Definition polar_story : FullStory := mkStory "q2" "Polar Night" [] [] [] 1 HINDI.
Definition cache_story (n : nat) : FullStory :=
  mkStory ("k" +:+ pretty (N.of_nat n)) "Kept Story" [] [] [] (Z.of_nat n) SPANISH.

(** A full cache of five stories holding an older version of the saved
    story: the older version goes and the four others stay, in order. *)
Definition full_slot : Slot :=
  SlotStories [cache_story 1; volcano_old; cache_story 2; cache_story 3; cache_story 4].

Lemma save_then_read_witness :
  full_slot <> SlotCorrupt /\
  head (getOfflineStories (saveStoryOffline true full_slot volcano_story)) = Some volcano_story /\
  cache_story 4 ∈ getOfflineStories (saveStoryOffline true full_slot volcano_story) /\
  getOfflineStories (saveStoryOffline true full_slot volcano_story) =
    [volcano_story; cache_story 1; cache_story 2; cache_story 3; cache_story 4].
Proof.
  assert (Hr : full_slot <> SlotCorrupt) by discriminate.
  destruct (save_then_read full_slot volcano_story Hr) as (Hh & _ & _ & _ & Hkeep).
  split; [exact Hr|]. split; [exact Hh|]. split.
  - apply Hkeep; [vm_compute; lia|vm_compute; set_solver|discriminate].
  - vm_compute. reflexivity.
Defined.

(** Saving the same story twice in a row leaves the cache as saving it
    once does, whatever the outcome of the writes. *)
Theorem save_idempotent (ok : bool) (slot : Slot) (s : FullStory) :
  saveStoryOffline ok (saveStoryOffline ok slot s) s = saveStoryOffline ok slot s.
Proof.
  destruct ok.
  - destruct slot as [| |l]; try reflexivity;
    cbn [saveStoryOffline read_slot take];
    rewrite filter_cons, decide_False by (unfold not; intros H; exact (H eq_refl));
    cbn [take]; f_equal; f_equal;
    rewrite filter_take_not_id, take_take; reflexivity.
  - unfold saveStoryOffline. destruct (read_slot slot) eqn:Hr; rewrite Hr; reflexivity.
Qed.

(** Whatever sequence of saves and media patches runs, the cache never
    holds two stories with the same identity if it did not before. *)
Theorem ops_keep_ids_distinct (ops : list StorageOp) (slot : Slot)
  (Hnd : NoDup (map story_id (getOfflineStories slot))) :
  NoDup (map story_id (getOfflineStories (apply_ops slot ops))).
Proof.
  revert slot Hnd. induction ops as [|op ops IH]; intros slot Hnd; [exact Hnd|].
  simpl. apply IH. destruct op as [ok s|ok sid cid u]; simpl.
  - apply save_keeps_ids_distinct. exact Hnd.
  - rewrite patch_keeps_ids. exact Hnd.
Qed.

Lemma ops_keep_ids_distinct_witness :
  NoDup (map story_id (getOfflineStories SlotEmpty)) /\
  NoDup (map story_id (getOfflineStories
    (apply_ops SlotEmpty [OpSave true volcano_story; OpSave true polar_story;
                          OpSave true volcano_story; OpPatch true "q1" "v1" "data:x"]))).
Proof.
  split; [constructor|].
  apply ops_keep_ids_distinct. constructor.
Defined.

(** Two successful media patches of the same scene: the last one wins, as
    if the first had not happened. *)
Theorem patch_last_write_wins (slot : Slot) (sid cid u1 u2 : string) :
  updateStorySceneMedia true (updateStorySceneMedia true slot sid cid u1) sid cid u2 =
  updateStorySceneMedia true slot sid cid u2.
Proof.
  destruct slot as [| |l]; try reflexivity. simpl.
  destruct (list_find _ l) as [[si st]|] eqn:Hf; [|simpl; rewrite Hf; reflexivity].
  destruct (list_find _ (scenes st)) as [[ci sc]|] eqn:Hc; [|simpl; rewrite Hf, Hc; reflexivity].
  assert (Hsid : story_id st = sid) by (apply list_find_Some in Hf; tauto).
  assert (Hcid : scene_id sc = cid) by (apply list_find_Some in Hc; tauto).
  simpl. rewrite (list_find_insert_same _ l si st _ Hf) by exact Hsid.
  simpl. rewrite (list_find_insert_same _ (scenes st) ci sc _ Hc) by exact Hcid.
  rewrite !list_insert_insert_eq. reflexivity.
Qed.

End StorageExtras.


Module MediaExtras.
Import Media.

Definition rover_a : StoryScene := mkScene "a" "The rover wakes up on Mars." "rover" Image None.
Definition rover_b : StoryScene := mkScene "b" "A dust storm rolls in." "storm" Video None.
Definition rover_story : FullStory :=
  mkStory "r1" "Rover Rescue" [rover_a; rover_b] [] [] 0 ENGLISH.

Lemma mediaEffect_frame st :
  m_story (fst (mediaEffect st)) = m_story st /\
  m_offline (fst (mediaEffect st)) = m_offline st /\
  m_slot (fst (mediaEffect st)) = m_slot st /\
  (forall k, is_Some (mediaCache st !! k) -> is_Some (mediaCache (fst (mediaEffect st)) !! k)) /\
  (m_offline st = true -> m_pending (fst (mediaEffect st)) = m_pending st).
Proof.
  unfold mediaEffect.
  destruct (isQuizMode st); [simpl; auto 6|].
  destruct (scenes (m_story st) !! m_idx st) as [sc|]; [|simpl; auto 6].
  destruct (truthy (mediaUrl sc) && negb (truthy (mediaCache st !! scene_id sc))).
  - simpl. repeat split; auto. intros k Hk. apply lookup_insert_is_Some'. tauto.
  - destruct (negb (truthy (mediaCache st !! scene_id sc)) && negb (m_offline st)) eqn:Hreq.
    + simpl. repeat split; auto. intros Hoff. rewrite Hoff, andb_false_r in Hreq. discriminate.
    + simpl. auto 6.
Qed.

Lemma step_offline e st :
  m_offline st = true -> e <> MSetOffline false ->
  m_offline (step e st) = true /\ m_pending (step e st) `sublist_of` m_pending st.
Proof.
  intros Hoff Hne. destruct e as [| |b|k url ok]; simpl.
  - destruct (isQuizMode st); [split; [exact Hoff|reflexivity]|].
    destruct (mediaEffect_frame (with_idx st (S (m_idx st)))) as (_ & H1 & _ & _ & H2).
    rewrite H1, H2 by exact Hoff. split; [exact Hoff|reflexivity].
  - destruct (isQuizMode st || Nat.eqb (m_idx st) 0); [split; [exact Hoff|reflexivity]|].
    destruct (mediaEffect_frame (with_idx st (Nat.pred (m_idx st)))) as (_ & H1 & _ & _ & H2).
    rewrite H1, H2 by exact Hoff. split; [exact Hoff|reflexivity].
  - destruct b; [|contradiction].
    rewrite Hoff. simpl. split; [exact Hoff|reflexivity].
  - destruct (m_pending st !! k) as [sc|]; [|split; [exact Hoff|reflexivity]].
    rewrite <- delete_take_drop.
    destruct (truthy url); simpl; (split; [exact Hoff|apply sublist_delete]).
Qed.

(** While the app stays offline no media request is issued: requests
    already pending may resolve, but none is added. *)
Theorem offline_issues_no_request (evs : list Event) (st : MediaState)
  (Hoff : m_offline st = true) (Hev : Forall (fun e => e <> MSetOffline false) evs) :
  m_pending (run evs st) `sublist_of` m_pending st.
Proof.
  revert st Hoff. induction Hev as [|e evs He Hev IH]; intros st Hoff; simpl; [reflexivity|].
  destruct (step_offline e st Hoff He) as [Hoff' Hsub].
  etrans; [apply IH; exact Hoff'|exact Hsub].
Qed.

Lemma offline_issues_no_request_witness :
  m_offline (loaded rover_story true SlotEmpty) = true /\
  m_pending (run [MNext; MPrev; MSetOffline true; MNext]
                 (loaded rover_story true SlotEmpty)) = [].
Proof.
  split; [reflexivity|].
  pose proof (offline_issues_no_request [MNext; MPrev; MSetOffline true; MNext]
    (loaded rover_story true SlotEmpty) eq_refl
    ltac:(repeat constructor; discriminate)) as H.
  apply sublist_nil_r. exact H.
Defined.

(** When a pending request resolves with a non-empty URL and the story is
    in the cache with that scene, the URL goes into the media cache and,
    the write succeeding, into the stored copy of the story. *)
Theorem resolve_persists_media (st : MediaState) (k : nat) (sc : StoryScene) (u : string)
  (l : list FullStory) (si ci : nat) (s0 : FullStory) (sc0 : StoryScene)
  (Hk : m_pending st !! k = Some sc) (Hu : u <> EmptyString)
  (Hslot : m_slot st = SlotStories l)
  (Hs : list_find (fun s => story_id s = story_id (m_story st)) l = Some (si, s0))
  (Hc : list_find (fun x => scene_id x = scene_id sc) (scenes s0) = Some (ci, sc0)) :
  let st' := step (MResolve k (Some u) true) st in
  mediaCache st' !! scene_id sc = Some u /\
  m_pending st' = delete k (m_pending st) /\
  exists s1, getOfflineStories (m_slot st') !! si = Some s1 /\
    story_id s1 = story_id (m_story st) /\
    option_map scene_id (scenes s1 !! ci) = Some (scene_id sc) /\
    option_map mediaUrl (scenes s1 !! ci) = Some (Some u).
Proof.
  assert (Ht : truthy (Some u) = true).
  { simpl. apply negb_true_iff. apply String.eqb_neq. exact Hu. }
  assert (Hsi : l !! si = Some s0) by (apply list_find_Some in Hs; tauto).
  assert (Hsid : story_id s0 = story_id (m_story st)) by (apply list_find_Some in Hs; tauto).
  assert (Hci : scenes s0 !! ci = Some sc0) by (apply list_find_Some in Hc; tauto).
  assert (Hcid : scene_id sc0 = scene_id sc) by (apply list_find_Some in Hc; tauto).
  cbv zeta. unfold step. rewrite Hk, Ht. cbn [mediaCache m_pending m_slot].
  split; [apply lookup_insert_eq|]. split; [symmetry; apply delete_take_drop|].
  rewrite Hslot. unfold updateStorySceneMedia. rewrite Hs, Hc. cbn [getOfflineStories read_slot].
  exists (set_story_scenes s0 (<[ci := set_scene_media sc0 u]> (scenes s0))).
  split; [apply list_lookup_insert_eq; apply lookup_lt_Some in Hsi; exact Hsi|].
  split; [exact Hsid|]. cbn [scenes set_story_scenes].
  rewrite list_lookup_insert_eq by (apply lookup_lt_Some in Hci; exact Hci).
  simpl. split; [f_equal; exact Hcid|reflexivity].
Qed.

Lemma resolve_persists_media_witness :
  mediaCache (step (MResolve 0 (Some "data:x"%string) true)
                (mkMedia rover_story 0 false ∅ [rover_a] (SlotStories [rover_story])))
    !! "a"%string = Some "data:x"%string.
Proof.
  exact (proj1 (resolve_persists_media
    (mkMedia rover_story 0 false ∅ [rover_a] (SlotStories [rover_story]))
    0 rover_a "data:x"%string [rover_story] 0 0 rover_story rover_a
    eq_refl ltac:(discriminate) eq_refl ltac:(vm_compute; reflexivity)
    ltac:(vm_compute; reflexivity))).
Defined.

End MediaExtras.


Module SimplifyExtras.
Import Simplify SimplifyProofs.

(** Everything of a scene but its narrative text. *)
Definition scene_shape (sc : StoryScene) : string * string * MediaType * option string :=
  (scene_id sc, imagePrompt sc, mediaType sc, mediaUrl sc).

(** [s'] is [s] with only scene texts changed. *)
Definition same_shape (s s' : FullStory) : Prop :=
  s' = set_story_scenes s (scenes s') /\ map scene_shape (scenes s') = map scene_shape (scenes s).

Lemma same_shape_refl s : same_shape s s.
Proof. split; [destruct s; reflexivity|reflexivity]. Qed.

Lemma same_shape_trans s1 s2 s3 : same_shape s1 s2 -> same_shape s2 s3 -> same_shape s1 s3.
Proof.
  intros [H1 H2] [H3 H4]. split; [|congruence].
  rewrite H3, H1 at 1. reflexivity.
Qed.

Lemma step_shape e st s :
  sim_story st = Some s ->
  exists s', sim_story (fst (step e st)) = Some s' /\ same_shape s s'.
Proof.
  intros Hs. destruct e as [b|s1| | |resp]; simpl.
  - rewrite rerun_story. simpl. exists s. split; [first [exact Hs|reflexivity]|apply same_shape_refl].
  - rewrite Hs. simpl. exists s. split; [first [exact Hs|reflexivity]|apply same_shape_refl].
  - rewrite Hs. destruct (isQuizMode st); simpl;
      [|rewrite rerun_story; simpl]; exists s; (split; [first [exact Hs|reflexivity]|apply same_shape_refl]).
  - rewrite Hs. destruct (isQuizMode st); simpl;
      [exists s; split; [first [exact Hs|reflexivity]|apply same_shape_refl]|].
    destruct (Nat.eqb (sim_idx st) 0); simpl;
      [|rewrite rerun_story; simpl]; exists s; (split; [first [exact Hs|reflexivity]|apply same_shape_refl]).
  - destruct (pending st) as [[i t]|]; simpl;
      [|exists s; split; [first [exact Hs|reflexivity]|apply same_shape_refl]].
    destruct (rerun _) as [st' obs] eqn:Hr. simpl.
    assert (Hst' : sim_story st' = sim_story (fst (rerun (mkSim
      (match sim_story st with
       | Some s => match scenes s !! i with
                   | Some sc => Some (set_story_scenes s (<[i := set_scene_text sc (simplifyContent resp t)]> (scenes s)))
                   | None => Some s end
       | None => None end) (sim_idx st) (sim_needs st) false None)))) by (rewrite Hr; reflexivity).
    rewrite Hst', rerun_story. simpl. rewrite Hs.
    destruct (scenes s !! i) as [sc|] eqn:Hsc.
    + eexists. split; [reflexivity|]. split; [reflexivity|].
      simpl. apply (StorageExtras.map_insert_same scene_shape _ i sc). exact Hsc. reflexivity.
    + exists s. split; [reflexivity|apply same_shape_refl].
Qed.

(** Emotion-driven simplification rewrites scene texts and nothing else:
    once a story is shown, every later state shows a story with the same
    identity, title, quiz, notes and language, and the same scenes in the
    same order with the same identities, image prompts, media types and
    stored media. *)
Theorem simplification_keeps_story_shape (evs : list Event) (st : SimState) (s : FullStory)
  (Hs : sim_story st = Some s) :
  exists s', sim_story (fst (run evs st)) = Some s' /\
    s' = set_story_scenes s (scenes s') /\
    map scene_shape (scenes s') = map scene_shape (scenes s).
Proof.
  cut (exists s', sim_story (fst (run evs st)) = Some s' /\ same_shape s s');
    [intros (s' & H1 & H2 & H3); exists s'; auto|].
  revert st s Hs. induction evs as [|e evs IH]; intros st s Hs.
  - exists s. split; [first [exact Hs|reflexivity]|apply same_shape_refl].
  - simpl. destruct (step e st) as [st1 o1] eqn:He1.
    destruct (step_shape e st s Hs) as (s1 & Hs1 & Hsh1).
    rewrite He1 in Hs1. simpl in Hs1.
    destruct (run evs st1) as [st2 o2] eqn:He2. simpl.
    destruct (IH st1 s1 Hs1) as (s2 & Hs2 & Hsh2).
    rewrite He2 in Hs2. exists s2. split; [exact Hs2|].
    exact (same_shape_trans _ _ _ Hsh1 Hsh2).
Qed.

Definition moon_story : FullStory :=
  mkStory "m1" "Moon Walk"
    [mkScene "p1" ("The astronaut climbs down the ladder and looks at the grey dust "
                   +:+ "that covers every rock of the quiet moon.") "ladder" Image None]
    [] [] 0 ENGLISH.

Lemma simplification_keeps_story_shape_witness :
  sim_story (mkSim (Some moon_story) 0 false false None) = Some moon_story /\
  exists s', sim_story (fst (run [ESample true; EDone (Returns (Some "Short."%string))]
                               (mkSim (Some moon_story) 0 false false None))) = Some s' /\
    map scene_shape (scenes s') = map scene_shape (scenes moon_story).
Proof.
  split; [reflexivity|].
  destruct (simplification_keeps_story_shape [ESample true; EDone (Returns (Some "Short."%string))]
              (mkSim (Some moon_story) 0 false false None) moon_story eq_refl)
    as (s' & H1 & _ & H3).
  exists s'. split; [exact H1|exact H3].
Defined.

End SimplifyExtras.

Module QuizExtras.

(** The questions answered with the given correctness. *)
Definition answered (b : bool) (qs : gmap nat bool) : nat :=
  size (filter (fun kv : nat * bool => kv.2 = b) qs).

(** The correctness of the first click on question [q]. *)
Fixpoint first_answer (q : nat) (clicks : list (nat * bool)) : option bool :=
  match clicks with
  | [] => None
  | (q', b) :: rest => if Nat.eqb q q' then Some b else first_answer q rest
  end.

Lemma answered_insert b b' qs q :
  qs !! q = None -> answered b (<[q := b']> qs) = (if Bool.eqb b' b then 1 else 0) + answered b qs.
Proof.
  intros Hq. unfold answered. destruct (Bool.eqb b' b) eqn:Hb.
  - apply Bool.eqb_prop in Hb. subst b'.
    rewrite map_filter_insert_True by reflexivity.
    rewrite map_size_insert_None; [lia|].
    apply map_lookup_filter_None_2. left. exact Hq.
  - rewrite map_filter_insert_False.
    + rewrite delete_id by exact Hq. reflexivity.
    + simpl. intros ->. rewrite Bool.eqb_reflx in Hb. discriminate.
Qed.

Lemma click_all_gen clicks qs p :
  let '(qs', p') := click_all clicks qs p in
  (forall q, qs' !! q = match qs !! q with Some b => Some b | None => first_answer q clicks end) /\
  (quizzesPassed p' + Z.of_nat (answered true qs) = quizzesPassed p + Z.of_nat (answered true qs'))%Z /\
  (totalPoints p' + 50 * Z.of_nat (answered true qs) + 10 * Z.of_nat (answered false qs) =
   totalPoints p + 50 * Z.of_nat (answered true qs') + 10 * Z.of_nat (answered false qs'))%Z /\
  badges p' = badges p /\ storiesCompleted p' = storiesCompleted p /\
  literacyScore p' = literacyScore p /\ engagementScore p' = engagementScore p.
Proof.
  revert qs p. induction clicks as [|[q b] clicks IH]; intros qs p; simpl.
  - split; [intros q; destruct (qs !! q); reflexivity|]. repeat split; lia.
  - unfold clickQuizOption. destruct (qs !! q) as [b0|] eqn:Hq.
    + specialize (IH qs p). destruct (click_all clicks qs p) as [qs' p'].
      destruct IH as (H1 & H2 & H3 & H4). split; [|exact (conj H2 (conj H3 H4))].
      intros q'. rewrite H1. destruct (qs !! q') eqn:Hq'; [reflexivity|].
      destruct (Nat.eqb_spec q' q); [congruence|reflexivity].
    + unfold handleQuizAnswer. specialize (IH (<[q := b]> qs) (updateStats b p)).
      destruct (click_all clicks _ _) as [qs' p'].
      destruct IH as (H1 & H2 & H3 & H4 & H5 & H6 & H7).
      rewrite (answered_insert true b qs q Hq) in H2, H3.
      rewrite (answered_insert false b qs q Hq) in H3.
      split; [|split; [|split; [|split; [|split; [|split]]]]].
      * intros q'. rewrite H1. destruct (Nat.eqb_spec q' q) as [->|Hne].
        -- rewrite lookup_insert_eq, Hq. reflexivity.
        -- rewrite lookup_insert_ne by congruence. reflexivity.
      * unfold updateStats in H2. destruct b; simpl in H2 |- *; lia.
      * unfold updateStats in H3. destruct b; simpl in H3 |- *; lia.
      * exact H4.
      * exact H5.
      * exact H6.
      * exact H7.
Qed.

(** Over any sequence of clicks on the quiz buttons, starting from an
    unanswered quiz, each question keeps the answer of its first click,
    [quizzesPassed] grows by the number of questions answered correctly,
    [totalPoints] by 50 per correct and 10 per wrong question, and no
    other field of the progress changes. *)
Theorem quiz_session_totals (clicks : list (nat * bool)) (p : UserProgress) :
  (forall q, (click_all clicks ∅ p).1 !! q = first_answer q clicks) /\
  quizzesPassed (click_all clicks ∅ p).2 =
    (quizzesPassed p + Z.of_nat (answered true (click_all clicks ∅ p).1))%Z /\
  totalPoints (click_all clicks ∅ p).2 =
    (totalPoints p + 50 * Z.of_nat (answered true (click_all clicks ∅ p).1)
                   + 10 * Z.of_nat (answered false (click_all clicks ∅ p).1))%Z /\
  badges (click_all clicks ∅ p).2 = badges p /\
  storiesCompleted (click_all clicks ∅ p).2 = storiesCompleted p /\
  literacyScore (click_all clicks ∅ p).2 = literacyScore p /\
  engagementScore (click_all clicks ∅ p).2 = engagementScore p.
Proof.
  pose proof (click_all_gen clicks ∅ p) as H.
  destruct (click_all clicks ∅ p) as [qs' p'].
  destruct H as (H1 & H2 & H3 & H4). simpl.
  assert (H0 : forall b, answered b ∅ = 0).
  { intros b. unfold answered. rewrite map_filter_empty. apply map_size_empty. }
  rewrite (H0 true) in H2, H3. rewrite (H0 false) in H3. simpl in H2, H3.
  split; [intros q; rewrite H1; reflexivity|]. split; [lia|]. split; [lia|]. exact H4.
Qed.

End QuizExtras.


Module VisualsExtras.

Lemma prefix_app (s t : string) : String.prefix s (s +:+ t) = true.
Proof.
  induction s as [|a s IH]; simpl; [destruct t; reflexivity|].
  destruct (ascii_dec a a) as [_|Hne]; [exact IH|contradiction].
Qed.

(** [generateVisuals] calls each backend at most once, in the order video
    (for a video scene only), high-tier image, flash image; when it ends
    with no media the flash model was the last one tried; and an image
    scene's media is always a PNG data URL. *)
Theorem visuals_call_order (prompt : string) (type : MediaType) (video : VideoResult)
    (pro flash : GenOutcome (list Part)) :
  let vp := AVideo (prompt +:+ video_suffix) in
  let ip := AProImage (prompt +:+ image_suffix) in
  let fp := AFlashImage (prompt +:+ image_suffix) in
  let r := generateVisuals prompt type video pro flash in
  snd r ∈ (match type with
           | Video => [[vp]; [vp; ip]; [vp; ip; fp]]
           | Image => [[ip]; [ip; fp]]
           end) /\
  (fst r = None -> last (snd r) = Some fp) /\
  (type = Image -> forall u, fst r = Some u ->
     String.prefix "data:image/png;base64," u = true).
Proof.
  assert (Hflash : forall u, fst (generateFlashImage prompt flash) = Some u ->
            String.prefix "data:image/png;base64," u = true).
  { intros u. unfold generateFlashImage. destruct flash as [|ps]; [discriminate|].
    simpl. induction ps as [|[t|d] ps IH]; simpl; [discriminate|exact IH|].
    intros Hu. injection Hu as <-. apply prefix_app. }
  assert (Hinl : forall ps u, first_inline ps = Some u ->
            String.prefix "data:image/png;base64," u = true).
  { induction ps as [|[t|d] ps IH]; simpl; [discriminate|exact IH|].
    intros u Hu. injection Hu as <-. apply prefix_app. }
  cbv zeta. destruct type.
  - unfold generateVisuals. destruct pro as [|ps].
    + simpl. split; [set_solver|]. split; [reflexivity|].
      intros _ u Hu. apply Hflash. destruct flash; exact Hu.
    + destruct (first_inline ps) as [u|] eqn:Hi; simpl.
      * split; [set_solver|]. split; [discriminate|].
        intros _ u' Hu. injection Hu as <-. exact (Hinl ps u Hi).
      * split; [set_solver|]. split; [reflexivity|].
        intros _ u Hu. apply Hflash. destruct flash; exact Hu.
  - unfold generateVisuals.
    destruct video as [| |d].
    3: { simpl. split; [set_solver|]. split; [discriminate|]. discriminate. }
    all: destruct pro as [|ps]; [simpl; split; [set_solver|]; split; [reflexivity|discriminate]|].
    all: destruct (first_inline ps) as [u|] eqn:Hi; simpl;
         (split; [set_solver|]); (split; [first [discriminate|reflexivity]|discriminate]).
Qed.

End VisualsExtras.


Module EmotionExtras.

(** The shape of every [EmotionAnalysisResult] the service returns. *)
Definition emotion_ok (prim_to_number : Json -> option Q) (r : EmotionAnalysisResult) : Prop :=
  json_truthy (emotion r) = true /\
  (json_truthy (confidence r) = true \/ confidence r = JNum 0%Q) /\
  (needsSimplification r = true ->
   emotion r = JStr "CONFUSED" /\ gt_threshold prim_to_number (confidence r) = true).

Lemma neutral_ok prim : emotion_ok prim neutral_result.
Proof. split; [reflexivity|]. split; [right; reflexivity|discriminate]. Qed.

Lemma js_or_truthy o d : json_truthy d = true -> json_truthy (js_or o d) = true.
Proof.
  intros Hd. destruct o as [v|]; simpl; [|exact Hd].
  destruct (json_truthy v) eqn:Hv; [exact Hv|exact Hd].
Qed.

Lemma built_ok prim e c :
  emotion_ok prim (mkEmotion (js_or e (JStr "NEUTRAL")) (js_or c (JNum 0%Q))
    (match e with Some (JStr s) => String.eqb s "CONFUSED" | _ => false end
     && gt_threshold prim (js_or c (JNum 0%Q)))).
Proof.
  split; [apply js_or_truthy; reflexivity|]. split.
  - destruct c as [v|]; simpl; [|right; reflexivity].
    destruct (json_truthy v) eqn:Hv; [left; exact Hv|right; reflexivity].
  - simpl. intros H. apply andb_prop in H as [He Hg]. split; [|exact Hg].
    destruct e as [[| | |s| |]|]; try discriminate.
    apply String.eqb_eq in He. subst s. reflexivity.
Qed.

(** Whatever the backend answers, [analyzeLearnerEmotion] returns a
    non-empty emotion, a confidence that is the model's truthy value or
    0, and asks for simplification only together with the emotion
    ["CONFUSED"] and a confidence above 0.6. *)
Theorem emotion_result_consistent (JSON_parse : list ascii -> option Json)
    (prim_to_number : Json -> option Q) (resp : GenOutcome (option string)) :
  let r := analyzeLearnerEmotion JSON_parse prim_to_number resp in
  json_truthy (emotion r) = true /\
  (json_truthy (confidence r) = true \/ confidence r = JNum 0%Q) /\
  (needsSimplification r = true ->
   emotion r = JStr "CONFUSED" /\ gt_threshold prim_to_number (confidence r) = true).
Proof.
  cbv zeta. fold (emotion_ok prim_to_number (analyzeLearnerEmotion JSON_parse prim_to_number resp)).
  unfold analyzeLearnerEmotion. destruct resp as [|txt]; [apply neutral_ok|].
  destruct (fst (parseJSON _ _)) as [d|]; [|apply neutral_ok].
  destruct d; try apply built_ok. apply neutral_ok.
Qed.

End EmotionExtras.

Module ParseExtras.

Definition no_bt_head (l : list ascii) : Prop :=
  match l with [] => True | c :: _ => c <> backtick end.

Lemma is_prefix_bt p s : no_bt_head s -> is_prefix (backtick :: p) s = false.
Proof.
  destruct s as [|c s]; cbn [is_prefix]; [reflexivity|]. intros Hc.
  destruct (Ascii.eqb backtick c) eqn:E; [|reflexivity].
  apply Ascii.eqb_eq in E. congruence.
Qed.

Lemma is_prefix_cons a p d s :
  is_prefix (a :: p) (d :: s) = Ascii.eqb a d && is_prefix p s.
Proof. reflexivity. Qed.

Lemma strip_step c t f :
  c <> backtick -> no_bt_head t ->
  strip_fences_go (S f) (c :: t) = c :: strip_fences_go f t.
Proof.
  intros Hc Ht. cbn [strip_fences_go].
  change (fence_json ++ [newline]) with (backtick :: (backtick :: backtick :: list_ascii_of_string "json" ++ [newline])).
  change fence_json with (backtick :: (backtick :: backtick :: list_ascii_of_string "json")).
  change fence with (backtick :: [backtick; backtick]).
  rewrite !is_prefix_bt by exact Hc.
  rewrite is_prefix_cons, (is_prefix_bt _ t Ht), andb_false_r. reflexivity.
Qed.

Lemma strip_plain body rest f :
  Forall (fun c => c <> backtick) body -> no_bt_head rest -> length body <= f ->
  strip_fences_go f (body ++ rest) = body ++ strip_fences_go (f - length body) rest.
Proof.
  revert f. induction body as [|c body IH]; intros f Hb Hr Hf.
  - simpl. rewrite Nat.sub_0_r. reflexivity.
  - inversion Hb as [|? ? Hc Hb']; subst. destruct f as [|f]; [simpl in Hf; lia|].
    simpl app. rewrite strip_step; [|exact Hc|].
    + simpl. f_equal. apply IH; [exact Hb'|exact Hr|simpl in Hf; lia].
    + destruct body as [|c' body]; simpl; [exact Hr|].
      inversion Hb'; assumption.
Qed.

Lemma strip_fences_plain body :
  Forall (fun c => c <> backtick) body -> strip_fences body = body.
Proof.
  intros Hb. unfold strip_fences. rewrite <- (app_nil_r body) at 2.
  rewrite strip_plain; [|exact Hb|exact I|lia].
  destruct (length body - length body); apply app_nil_r.
Qed.

Lemma newline_not_bt : newline <> backtick.
Proof. discriminate. Qed.

Lemma strip_open f x :
  strip_fences_go (S f) (fence_json ++ newline :: x) = strip_fences_go f x.
Proof. reflexivity. Qed.

Lemma strip_fences_fenced body :
  Forall (fun c => c <> backtick) body ->
  strip_fences (fence_json ++ newline :: body ++ newline :: fence) = body.
Proof.
  intros Hb. unfold strip_fences.
  assert (Hlen : length (fence_json ++ newline :: body ++ newline :: fence) = S (11 + length body)).
  { rewrite length_app. simpl. rewrite length_app. simpl. lia. }
  rewrite Hlen, strip_open.
  rewrite strip_plain; [|exact Hb|exact newline_not_bt|lia].
  replace (11 + length body - length body) with 11 by lia.
  assert (E : strip_fences_go 11 (newline :: fence) = []) by (vm_compute; reflexivity).
  rewrite E. apply app_nil_r.
Qed.

Lemma indexOf_below c s i : indexOf c s = Some i -> i < length s.
Proof.
  revert i. induction s as [|d s IH]; intros i H; simpl in H; [discriminate|].
  destruct (Ascii.eqb c d).
  - injection H as <-. simpl. lia.
  - destruct (indexOf c s) as [j|] eqn:Hj; simpl in H; [|discriminate].
    injection H as <-. simpl. specialize (IH j eq_refl). lia.
Qed.

Lemma indexOf_app c s p :
  indexOf c (s ++ p) =
  match indexOf c s with
  | Some i => Some i
  | None => option_map (Nat.add (length s)) (indexOf c p)
  end.
Proof.
  induction s as [|d s IH]; simpl.
  - destruct (indexOf c p); reflexivity.
  - destruct (Ascii.eqb c d); [reflexivity|]. rewrite IH.
    destruct (indexOf c s); [reflexivity|]. destruct (indexOf c p); reflexivity.
Qed.

(** The text around the body of a fenced answer. *)
Definition fence_open : list ascii := fence_json ++ [newline].
Definition fence_close : list ascii := newline :: fence.

Lemma fenced_split body :
  fence_json ++ newline :: body ++ newline :: fence = fence_open ++ body ++ fence_close.
Proof. unfold fence_open, fence_close. rewrite <- app_assoc. reflexivity. Qed.

Lemma indexOf_between c body :
  indexOf c fence_open = None -> indexOf c fence_close = None ->
  indexOf c (fence_open ++ body ++ fence_close) = option_map (Nat.add 8) (indexOf c body).
Proof.
  intros Ho Hc. rewrite indexOf_app, Ho, indexOf_app, Hc.
  destruct (indexOf c body); reflexivity.
Qed.

Lemma lastIndexOf_between c body :
  indexOf c (reverse fence_open) = None -> indexOf c (reverse fence_close) = None ->
  lastIndexOf c (fence_open ++ body ++ fence_close) = option_map (Nat.add 8) (lastIndexOf c body).
Proof.
  intros Ho Hc. unfold lastIndexOf.
  rewrite !reverse_app, <- app_assoc, indexOf_app, Hc, indexOf_app, Ho.
  destruct (indexOf c (reverse body)) as [i|] eqn:Hi; simpl; [|reflexivity].
  apply indexOf_below in Hi. rewrite length_reverse in Hi.
  f_equal. rewrite length_app. change (length fence_close) with 4. lia.
Qed.

Lemma substring_between body a b :
  a <= length body -> b <= length body ->
  js_substring (fence_open ++ body ++ fence_close) (8 + a) (8 + b) = js_substring body a b.
Proof.
  intros Ha Hb. unfold js_substring. rewrite !length_app.
  change (length fence_open) with 8.
  rewrite (Nat.min_l (8 + a)) by lia. rewrite (Nat.min_l (8 + b)) by lia.
  rewrite (Nat.min_l a) by lia. rewrite (Nat.min_l b) by lia.
  rewrite Nat.add_min_distr_l, Nat.add_max_distr_l.
  replace (8 + Nat.max a b - (8 + Nat.min a b)) with (Nat.max a b - Nat.min a b) by lia.
  change 8 with (length fence_open) at 1. rewrite drop_app_add.
  rewrite drop_app_le by lia. apply take_app_le. rewrite length_drop. lia.
Qed.

(** A model answer wrapped in a ```json fence (opening line
    ["```json"], closing line ["```"]) is parsed exactly like its
    unwrapped body, as long as the body holds no backtick: [parseJSON]
    hands [JSON.parse] the same strings in the same order and returns the
    same value, also on the brace-recovery path. *)
Theorem parse_fence_transparent (JSON_parse : list ascii -> option Json) (body : list ascii)
    (Hb : Forall (fun c => c <> backtick) body) :
  parseJSON JSON_parse (fence_json ++ newline :: body ++ newline :: fence) =
  parseJSON JSON_parse body.
Proof.
  unfold parseJSON.
  rewrite (strip_fences_fenced body Hb), (strip_fences_plain body Hb).
  destruct (JSON_parse (trim body)) as [v|]; [reflexivity|].
  rewrite fenced_split, (indexOf_between _ body), (lastIndexOf_between _ body)
    by reflexivity.
  destruct (indexOf "{"%char body) as [f|] eqn:Hf; [|reflexivity].
  destruct (lastIndexOf "}"%char body) as [l|] eqn:Hl; [|reflexivity].
  cbn [option_map].
  apply indexOf_below in Hf.
  assert (Hl' : l < length body).
  { unfold lastIndexOf in Hl. destruct (indexOf _ (reverse body)) as [i|] eqn:Hi; [|discriminate].
    injection Hl as <-. apply indexOf_below in Hi. rewrite length_reverse in Hi. lia. }
  replace (8 + l + 1) with (8 + (l + 1)) by lia.
  rewrite substring_between by lia. reflexivity.
Qed.

Lemma parse_fence_transparent_witness :
  Forall (fun c => c <> backtick) (list_ascii_of_string "note {1} end") /\
  parseJSON (fun _ => None) (fence_json ++ newline :: list_ascii_of_string "note {1} end" ++ newline :: fence) =
  (None, [list_ascii_of_string "note {1} end"; list_ascii_of_string "{1}"]).
Proof.
  assert (Hb : Forall (fun c => c <> backtick) (list_ascii_of_string "note {1} end"))
    by (repeat constructor; discriminate).
  split; [exact Hb|].
  rewrite (parse_fence_transparent (fun _ => None) _ Hb). vm_compute. reflexivity.
Defined.

End ParseExtras.


Module GenerateUIExtras.

Definition cache_entry (sc : StoryScene) : option (string * string) :=
  match mediaUrl sc with
  | Some u => if String.eqb u EmptyString then None else Some (scene_id sc, u)
  | None => None
  end.

Lemma initialCache_eq s : initialCache s = list_to_map (reverse (omap cache_entry (scenes s))).
Proof. reflexivity. Qed.

Lemma cache_entry_Some sc k u :
  cache_entry sc = Some (k, u) <-> scene_id sc = k /\ mediaUrl sc = Some u /\ Media.truthy (Some u) = true.
Proof.
  unfold cache_entry, Media.truthy. destruct (mediaUrl sc) as [v|]; [|split; [discriminate|intros (_ & ? & _); discriminate]].
  destruct (String.eqb v EmptyString) eqn:Hv; split.
  - discriminate.
  - intros (_ & [= <-] & H). rewrite Hv in H. discriminate.
  - intros [= <- <-]. rewrite Hv. auto.
  - intros (<- & [= <-] & _). reflexivity.
Qed.

Lemma entries_elem (l : list StoryScene) k u :
  (k, u) ∈ omap cache_entry l <->
  exists sc, sc ∈ l /\ scene_id sc = k /\ mediaUrl sc = Some u /\ Media.truthy (Some u) = true.
Proof.
  rewrite list_elem_of_omap. split.
  - intros (sc & Hin & He). apply cache_entry_Some in He. eauto.
  - intros (sc & Hin & Hk). exists sc. split; [exact Hin|]. apply cache_entry_Some. exact Hk.
Qed.

Lemma key_elem (l : list StoryScene) k :
  k ∈ (omap cache_entry l).*1 ->
  exists sc u, sc ∈ l /\ scene_id sc = k /\ mediaUrl sc = Some u /\ Media.truthy (Some u) = true.
Proof.
  intros Hk. apply list_elem_of_fmap in Hk as ([k' u] & -> & Hin).
  apply entries_elem in Hin as (sc & ?). simpl. eauto.
Qed.

Lemma entries_nodup (l : list StoryScene) : NoDup (map scene_id l) -> NoDup (omap cache_entry l).*1.
Proof.
  induction l as [|sc l IH]; simpl; intros Hnd; [constructor|].
  apply NoDup_cons in Hnd as [Hnot Hnd].
  destruct (cache_entry sc) as [[k u]|] eqn:He; simpl; [|exact (IH Hnd)].
  apply cache_entry_Some in He as (<- & _).
  constructor; [|exact (IH Hnd)].
  intros Hk. apply key_elem in Hk as (sc' & u' & Hin & Hid & _).
  apply Hnot. apply list_elem_of_fmap. exists sc'. split; [symmetry; exact Hid|exact Hin].
Qed.

Lemma scene_id_inj (l : list StoryScene) sc sc' :
  NoDup (map scene_id l) -> sc ∈ l -> sc' ∈ l -> scene_id sc = scene_id sc' -> sc = sc'.
Proof.
  induction l as [|x l IH]; simpl; intros Hnd Hin Hin' Hid; [inversion Hin|].
  apply NoDup_cons in Hnd as [Hnot Hnd].
  apply elem_of_cons in Hin as [->|Hin]; apply elem_of_cons in Hin' as [->|Hin']; auto.
  - exfalso. apply Hnot. apply list_elem_of_fmap. exists sc'. auto.
  - exfalso. apply Hnot. apply list_elem_of_fmap. exists sc. auto.
Qed.

Lemma cache_nodup s : NoDup (map scene_id (scenes s)) ->
  NoDup (reverse (omap cache_entry (scenes s))).*1.
Proof.
  intros Hnd. rewrite fmap_reverse, reverse_Permutation. apply entries_nodup. exact Hnd.
Qed.

Lemma initialCache_lookup s sc :
  NoDup (map scene_id (scenes s)) -> sc ∈ scenes s ->
  initialCache s !! scene_id sc = if Media.truthy (mediaUrl sc) then mediaUrl sc else None.
Proof.
  intros Hnd Hin. rewrite initialCache_eq.
  destruct (Media.truthy (mediaUrl sc)) eqn:Ht.
  - destruct (mediaUrl sc) as [u|] eqn:Hu; [|discriminate].
    apply elem_of_list_to_map; [apply cache_nodup; exact Hnd|].
    apply elem_of_reverse, entries_elem. exists sc. rewrite Hu. auto.
  - apply not_elem_of_list_to_map. rewrite fmap_reverse, elem_of_reverse.
    intros Hk. apply key_elem in Hk as (sc' & u & Hin' & Hid & Hu & Htu).
    rewrite (scene_id_inj _ sc' sc Hnd Hin' Hin Hid), Hu in *. congruence.
Qed.

Lemma initialCache_other s k :
  k ∉ map scene_id (scenes s) -> initialCache s !! k = None.
Proof.
  intros Hk. rewrite initialCache_eq. apply not_elem_of_list_to_map.
  rewrite fmap_reverse, elem_of_reverse. intros Hk'.
  apply key_elem in Hk' as (sc & u & Hin & Hid & _). apply Hk.
  apply list_elem_of_fmap. exists sc. auto.
Qed.

(** A successful generation from a non-blank topic shows the new story at
    its first scene with no quiz answers and no error, clears the input,
    and seeds the media cache with exactly the scenes' non-empty media
    URLs, keyed by scene identity (scene identities being distinct). *)
Theorem generate_success_state (s : FullStory) (ui : GenUI)
    (Hin : trim (list_ascii_of_string (ui_input ui)) <> [])
    (Hnd : NoDup (map scene_id (scenes s))) :
  let ui' := fst (handleGenerate (Some s) ui) in
  snd (handleGenerate (Some s) ui) = true /\
  ui_story ui' = Some s /\ ui_idx ui' = 0 /\ ui_quiz ui' = ∅ /\
  ui_error ui' = None /\ ui_input ui' = EmptyString /\ ui_loading ui' = false /\
  (forall sc, sc ∈ scenes s ->
     ui_cache ui' !! scene_id sc = if Media.truthy (mediaUrl sc) then mediaUrl sc else None) /\
  (forall k, k ∉ map scene_id (scenes s) -> ui_cache ui' !! k = None).
Proof.
  unfold handleGenerate. destruct (trim _) as [|c t]; [contradiction|]. simpl.
  repeat split.
  - intros sc Hsc. apply initialCache_lookup; assumption.
  - intros k Hk. apply initialCache_other. exact Hk.
Qed.

Definition reef_story : FullStory :=
  mkStory "g1" "Coral Reef"
    [mkScene "c1" "Fish swim past the coral." "reef" Image (Some "data:image/png;base64,AAAA"%string);
     mkScene "c2" "A turtle glides by." "turtle" Video (Some EmptyString);
     mkScene "c3" "Night falls on the reef." "night" Image None]
    [] [] 0 ENGLISH.

Definition reef_ui : GenUI := mkGenUI "  coral reefs " false None None 3 ∅ ∅.

Lemma generate_success_state_witness :
  trim (list_ascii_of_string (ui_input reef_ui)) <> [] /\
  NoDup (map scene_id (scenes reef_story)) /\
  ui_cache (fst (handleGenerate (Some reef_story) reef_ui)) !! "c2"%string = None.
Proof.
  assert (Hin : trim (list_ascii_of_string (ui_input reef_ui)) <> []) by (vm_compute; discriminate).
  assert (Hnd : NoDup (map scene_id (scenes reef_story))) by (vm_compute; repeat constructor; set_solver).
  split; [exact Hin|]. split; [exact Hnd|].
  destruct (generate_success_state reef_story reef_ui Hin Hnd) as (_ & _ & _ & _ & _ & _ & _ & Hc & _).
  exact (Hc (mkScene "c2" "A turtle glides by." "turtle" Video (Some EmptyString))
            ltac:(vm_compute; set_solver)).
Defined.

End GenerateUIExtras.
